(** * Verification of [packages/svelte/src/internal/client/dom/operations.js]

    A shallow embedding of the tree walker ([child], [first_child],
    [sibling]), the node factory ([create_text], [set_attribute]), the
    environment binding ([init_operations]) and the deferred-append policy
    ([should_defer_append]).  The live document is an explicit heap of
    nodes; module-level variables of the runtime become fields of the
    state that every operation threads. *)

From Stdlib Require Import ZArith Ascii String.
From stdpp Require Import base option list gmap strings fin_maps.

Local Open Scope Z_scope.

(** ** JavaScript completions *)

Module Js.

(** The exceptions the modelled code can raise. *)
Inductive exn : Type :=
  | TypeError
  | ReferenceError
  | HierarchyRequestError
  | InvalidCharacterError
  | NamespaceError.

(** A completion is either a value or a thrown exception. *)
Inductive completion (A : Type) : Type :=
  | Ok (a : A)
  | Throw (e : exn).
Arguments Ok {A} a.
Arguments Throw {A} e.

(** A computation over a mutable world [S]: the world survives a throw,
    as every mutation done before the throw stays done. *)
Definition M (S A : Type) : Type := S -> completion A * S.

Definition ret {S A} (a : A) : M S A := fun s => (Ok a, s).
Definition throw {S A} (e : exn) : M S A := fun s => (Throw e, s).
Definition bind {S A B} (m : M S A) (k : A -> M S B) : M S B :=
  fun s => match m s with
           | (Ok a, s') => k a s'
           | (Throw e, s') => (Throw e, s')
           end.
Definition gets {S A} (f : S -> A) : M S A := fun s => (Ok (f s), s).
Definition modify {S} (f : S -> S) : M S unit := fun s => (Ok tt, f s).

(** Optional chaining [r?.m(...)]: nothing is evaluated when [r] is
    [null] or [undefined], and the expression is then [undefined]. *)
Definition optional {S R A} (r : option R) (m : M S A) : M S (option A) :=
  match r with
  | None => ret None
  | Some _ => bind m (fun a => ret (Some a))
  end.

End Js.

Import Js.

Declare Scope js_scope.
Delimit Scope js_scope with js.
Notation "'let*' x ':=' m 'in' k" := (bind m (fun x => k))
  (at level 10, x pattern, m at level 100, k at level 200) : js_scope.
Notation "m ';;' k" := (bind m (fun _ => k))
  (at level 100, k at level 200, right associativity) : js_scope.
Local Open Scope js_scope.

(** ** The live document *)

Module Dom.

(** Node handles.  A handle that the heap does not map is a value that is
    not a [Node]; [null] is [None] of [option ref]. *)
Definition ref : Type := nat.

Inductive kind : Type :=
  | Element
  | Text
  | Comment
  | Document
  | DocumentFragment.

Global Instance kind_eq_dec : EqDecision kind.
Proof. solve_decision. Defined.

(** [Node.nodeType] *)
Definition nodeType_of (k : kind) : Z :=
  match k with
  | Element => 1
  | Text => 3
  | Comment => 8
  | Document => 9
  | DocumentFragment => 11
  end.

(** An attribute of an element: namespace, prefix, local name, value. *)
Record attr : Type := Attr {
  attr_ns : option string;
  attr_prefix : option string;
  attr_local : string;
  attr_value : string
}.

Record node : Type := Node {
  node_kind : kind;
  data : string;              (* character data of Text and Comment *)
  parentNode : option ref;
  childNodes : list ref;
  attributes : list attr      (* of Element *)
}.

Definition with_parent (p : option ref) (n : node) : node :=
  Node (node_kind n) (data n) p (childNodes n) (attributes n).
Definition with_children (l : list ref) (n : node) : node :=
  Node (node_kind n) (data n) (parentNode n) l (attributes n).
Definition with_attributes (l : list attr) (n : node) : node :=
  Node (node_kind n) (data n) (parentNode n) (childNodes n) l.

(** The document: the heap of live nodes together with the hydration
    module's two variables, [hydrating] and [hydrate_node]. *)
Record doc : Type := Doc {
  heap : gmap ref node;
  hydrating : bool;
  hydrate_node : option ref
}.

Definition with_heap (h : gmap ref node) (d : doc) : doc :=
  Doc h (hydrating d) (hydrate_node d).
Definition with_cursor (c : option ref) (d : doc) : doc :=
  Doc (heap d) (hydrating d) c.

(** *** List surgery on [childNodes] *)

(** The element that follows the first occurrence of [i]. *)
Fixpoint following (i : ref) (l : list ref) : option ref :=
  match l with
  | [] => None
  | x :: l' => if decide (x = i) then head l' else following i l'
  end.

(** Put [new] immediately before [i]. *)
Fixpoint splice_before (i new : ref) (l : list ref) : list ref :=
  match l with
  | [] => []
  | x :: l' =>
      if decide (x = i) then new :: x :: l' else x :: splice_before i new l'
  end.

(** Put [new] immediately after [i]. *)
Fixpoint splice_after (i new : ref) (l : list ref) : list ref :=
  match l with
  | [] => []
  | x :: l' =>
      if decide (x = i) then x :: new :: l' else x :: splice_after i new l'
  end.

Definition without (i : ref) (l : list ref) : list ref :=
  filter (λ x, x ≠ i) l.

(** *** Host primitives *)

(** Resolve a value to the node it denotes; [null] and non-nodes make
    the host accessor throw. *)
Definition deref (r : option ref) : M doc (ref * node) :=
  match r with
  | None => throw TypeError
  | Some i =>
      let* h := gets heap in
      match h !! i with
      | None => throw TypeError
      | Some n => ret (i, n)
      end
  end.

(** The [firstChild] getter of [Node.prototype]. *)
Definition firstChild (r : option ref) : M doc (option ref) :=
  let* (_, n) := deref r in
  ret (head (childNodes n)).

(** The [nextSibling] getter of [Node.prototype]. *)
Definition nextSibling (r : option ref) : M doc (option ref) :=
  let* (i, n) := deref r in
  match parentNode n with
  | None => ret None
  | Some p =>
      let* h := gets heap in
      match h !! p with
      | None => ret None
      | Some pn => ret (following i (childNodes pn))
      end
  end.

(** The property read [node.nodeType]: reading a property of [null]
    throws, and an object that is not a node has no such property
    ([None] is [undefined]). *)
Definition nodeType (r : option ref) : M doc (option Z) :=
  match r with
  | None => throw TypeError
  | Some i =>
      let* h := gets heap in
      ret (nodeType_of ∘ node_kind <$> h !! i)
  end.

(** [node instanceof Comment] *)
Definition instanceof_Comment (r : option ref) : M doc bool :=
  match r with
  | None => ret false
  | Some i =>
      let* h := gets heap in
      ret (from_option (λ n, bool_decide (node_kind n = Comment)) false (h !! i))
  end.

(** The property read [node.data] of character data. *)
Definition get_data (r : option ref) : M doc (option string) :=
  match r with
  | None => throw TypeError
  | Some i =>
      let* h := gets heap in
      ret (data <$> h !! i)
  end.

(** [document.createTextNode(value)]: a new, parentless text node. *)
Definition createTextNode (value : string) : M doc ref :=
  let* h := gets heap in
  let i := fresh (dom h) in
  modify (with_heap (<[i := Node Text value None [] []]> h)) ;;
  ret i.

(** [document.createComment(data)] *)
Definition createComment (value : string) : M doc ref :=
  let* h := gets heap in
  let i := fresh (dom h) in
  modify (with_heap (<[i := Node Comment value None [] []]> h)) ;;
  ret i.

(** [document.createDocumentFragment()] *)
Definition createDocumentFragment : M doc ref :=
  let* h := gets heap in
  let i := fresh (dom h) in
  modify (with_heap (<[i := Node DocumentFragment "" None [] []]> h)) ;;
  ret i.

(** Whether [parent] may receive the child [new]: only documents,
    fragments and elements have children, and a document takes no text.
    (What else a document refuses does not matter here, where only text
    nodes are inserted.) *)
Definition accepts (parent new : kind) : bool :=
  match parent with
  | Element | DocumentFragment => true
  | Document => bool_decide (new ≠ Text)
  | Text | Comment => false
  end.

(** Take [new] out of the children of its parent, if it has one. *)
Definition unlink (new : ref) (h : gmap ref node) : gmap ref node :=
  match h !! new with
  | Some n =>
      match parentNode n with
      | Some q =>
          <[new := with_parent None n]>
            (alter (λ qn, with_children (without new (childNodes qn)) qn) q h)
      | None => h
      end
  | None => h
  end.

(** Insert [new] under [p], its place among the children given by
    [place]. *)
Definition adopt (p new : ref) (place : list ref -> list ref)
    (h : gmap ref node) : gmap ref node :=
  let h1 := unlink new h in
  let h2 := alter (with_parent (Some p)) new h1 in
  alter (λ pn, with_children (place (childNodes pn)) pn) p h2.

(** The insertion of the DOM: checked, then done; [place] says where the
    new child goes in the list of children. *)
Definition insert_checked (p new : option ref)
    (place : ref -> list ref -> list ref) : M doc unit :=
  let* (pi, pn) := deref p in
  let* (ni, nn) := deref new in
  if accepts (node_kind pn) (node_kind nn)
  then modify (λ d, with_heap (adopt pi ni (place ni) (heap d)) d)
  else throw HierarchyRequestError.

(** [parent.appendChild(new)], which returns [new]. *)
Definition appendChild (parent new : option ref) : M doc (option ref) :=
  insert_checked parent new (λ n l, l ++ [n]) ;;
  ret new.

(** Whether a node of this kind has the methods [before] and [after]:
    they belong to elements and character data, and neither a document
    nor a fragment has them. *)
Definition is_child_node (k : kind) : bool :=
  match k with
  | Element | Text | Comment => true
  | Document | DocumentFragment => false
  end.

(** [node.before(new)]: calling it on a node that has no such method
    throws, and nothing happens when [node] has no parent. *)
Definition before (r new : option ref) : M doc unit :=
  let* (i, n) := deref r in
  if is_child_node (node_kind n) then
    match parentNode n with
    | None => ret tt
    | Some p =>
        insert_checked (Some p) new (splice_before i)
    end
  else throw TypeError.

(** [node.after(new)]: calling it on a node that has no such method
    throws, and nothing happens when [node] has no parent. *)
Definition after (r new : option ref) : M doc unit :=
  let* (i, n) := deref r in
  if is_child_node (node_kind n) then
    match parentNode n with
    | None => ret tt
    | Some p =>
        insert_checked (Some p) new (splice_after i)
    end
  else throw TypeError.

(** *** Attributes *)

(** What differs from one document to the next: which names it takes
    beyond the rule that holds everywhere (a document that goes by the XML
    productions [Name] and [QName] takes fewer names than a later one), and
    which of its elements are HTML elements of an HTML document. *)
Record markup : Type := Markup {
  name_ok : string -> bool;
  qualified_ok : string -> bool;
  html_element : ref -> bool
}.

(** The qualified name of an attribute: [prefix:local], or [local]. *)
Definition qualified_name (a : attr) : string :=
  match attr_prefix a with
  | Some p => p +:+ ":" +:+ attr_local a
  | None => attr_local a
  end.

(** A qualified name cut at its first colon into prefix and local
    name. *)
Definition split_qualified (q : string) : option string * string :=
  match String.index 0 ":" q with
  | Some n =>
      (Some (String.substring 0 n q),
       String.substring (S n) (String.length q - S n) q)
  | None => (None, q)
  end.

Fixpoint all_chars (f : ascii -> bool) (s : string) : bool :=
  match s with
  | EmptyString => true
  | String c s' => f c && all_chars f s'
  end.

(** No local name of an attribute contains ASCII whitespace, NUL, [/],
    [=] or [>], and no prefix contains ASCII whitespace, NUL, [/] or
    [>]. *)
Definition local_char (c : ascii) : bool :=
  negb (existsb (Nat.eqb (nat_of_ascii c))
          [0; 9; 10; 12; 13; 32; 47; 61; 62]%nat).
Definition prefix_char (c : ascii) : bool :=
  negb (existsb (Nat.eqb (nat_of_ascii c))
          [0; 9; 10; 12; 13; 32; 47; 62]%nat).

(** A local name and a prefix have at least one character. *)
Definition valid_local (s : string) : bool :=
  match s with
  | EmptyString => false
  | String _ _ => all_chars local_char s
  end.
Definition valid_prefix (s : string) : bool :=
  match s with
  | EmptyString => false
  | String _ _ => all_chars prefix_char s
  end.

(** The names [setAttribute] takes, and the qualified names
    [setAttributeNS] takes. *)
Definition valid_name (m : markup) (name : string) : bool :=
  valid_local name && name_ok m name.
Definition valid_qualified (m : markup) (q : string) : bool :=
  from_option valid_prefix true (fst (split_qualified q))
  && valid_local (snd (split_qualified q))
  && qualified_ok m q.

(** ASCII lower-casing. *)
Definition ascii_lower (c : ascii) : ascii :=
  let n := nat_of_ascii c in
  if (65 <=? n)%nat && (n <=? 90)%nat then ascii_of_nat (n + 32) else c.
Fixpoint lowercase (s : string) : string :=
  match s with
  | EmptyString => EmptyString
  | String c s' => String (ascii_lower c) (lowercase s')
  end.

(** The name under which an element keeps and looks up an attribute that
    is set or read by its qualified name: HTML elements of an HTML document
    lower-case it. *)
Definition stored_name (m : markup) (i : ref) (name : string) : string :=
  if html_element m i then lowercase name else name.

(** Give the first attribute that [sel] selects the value [v]; [None]
    when it selects none. *)
Fixpoint revalue (sel : attr -> bool) (v : string) (l : list attr)
    : option (list attr) :=
  match l with
  | [] => None
  | a :: l' =>
      if sel a
      then Some (Attr (attr_ns a) (attr_prefix a) (attr_local a) v :: l')
      else cons a <$> revalue sel v l'
  end.

Definition put_attr (sel : attr -> bool) (fresh_attr : attr)
    (l : list attr) : list attr :=
  default (l ++ [fresh_attr]) (revalue sel (attr_value fresh_attr) l).

Definition same_qualified (q : string) (a : attr) : bool :=
  bool_decide (qualified_name a = q).
Definition same_ns_local (ns : option string) (local : string) (a : attr)
    : bool :=
  bool_decide (attr_ns a = ns) && bool_decide (attr_local a = local).

(** Methods of [Element.prototype]: other nodes do not have them, and
    calling what is [undefined] throws. *)
Definition deref_element (r : option ref) : M doc (ref * node) :=
  let* (i, n) := deref r in
  if bool_decide (node_kind n = Element) then ret (i, n)
  else throw TypeError.

(** [element.setAttribute(name, value)]: a name that is not valid throws;
    an HTML element of an HTML document lower-cases the name; then the
    first attribute of that qualified name takes the value, otherwise a
    new attribute in no namespace is appended. *)
Definition setAttribute (m : markup) (r : option ref) (name value : string)
    : M doc unit :=
  let* (i, n) := deref_element r in
  if valid_name m name then
    let name := stored_name m i name in
    let l := put_attr (same_qualified name) (Attr None None name value)
               (attributes n) in
    modify (λ d, with_heap (<[i := with_attributes l n]> (heap d)) d)
  else throw InvalidCharacterError.

(** An empty namespace is no namespace. *)
Definition namespace_of (ns : option string) : option string :=
  match ns with
  | Some EmptyString => None
  | _ => ns
  end.

(** Validating a namespace and a qualified name and cutting the name:
    the name has to be valid; a prefix needs a namespace; the prefix [xml]
    and the name or prefix [xmlns] go with their own namespaces only, and
    the [xmlns] namespace with no other name. *)
Definition validate_and_extract (m : markup) (ns : option string)
    (q : string) : completion (option string * option string * string) :=
  let ns := namespace_of ns in
  let pre := fst (split_qualified q) in
  let xmlns := bool_decide (q = "xmlns") || bool_decide (pre = Some "xmlns") in
  if negb (valid_qualified m q) then Throw InvalidCharacterError
  else if bool_decide (pre ≠ None) && bool_decide (ns = None)
  then Throw NamespaceError
  else if bool_decide (pre = Some "xml")
          && negb (bool_decide
                     (ns = Some "http://www.w3.org/XML/1998/namespace"))
  then Throw NamespaceError
  else if xmlns && negb (bool_decide (ns = Some "http://www.w3.org/2000/xmlns/"))
  then Throw NamespaceError
  else if bool_decide (ns = Some "http://www.w3.org/2000/xmlns/") && negb xmlns
  then Throw NamespaceError
  else Ok (ns, pre, snd (split_qualified q)).

(** [element.setAttributeNS(namespace, name, value)]: once namespace and
    name are validated, the attribute of that namespace and local name
    takes the value, otherwise a new one in that namespace is appended. *)
Definition setAttributeNS (m : markup) (r : option ref) (ns : option string)
    (name value : string) : M doc unit :=
  let* (i, n) := deref_element r in
  match validate_and_extract m ns name with
  | Throw e => throw e
  | Ok (ns, pre, local) =>
      let l := put_attr (same_ns_local ns local) (Attr ns pre local value)
                 (attributes n) in
      modify (λ d, with_heap (<[i := with_attributes l n]> (heap d)) d)
  end.



End Dom.

Import Dom.

(** ** [hydration.js], at its interface *)

(** Modelled from the spec: [set_hydrate_node] of [./hydration.js], which is
    not among the sources.  The hydration cursor has two operations,
    get-current and set-current, pure state accessors; set-current performs
    no validation. *)
Definition set_hydrate_node (r : option ref) : M doc (option ref) :=
  modify (with_cursor r) ;; ret r.

(** Modelled from the spec: [TEXT_NODE] of [#client/constants], which is not
    among the sources.  The walker's test [nodeType !== TEXT_NODE] is the
    spec's "is not a text node", which makes the constant the [nodeType] of
    [Text]. *)
Definition TEXT_NODE : Z := 3.

(** ** [operations.js]: node factory and tree walker *)

(** [create_text(value = '')] *)
Definition create_text (value : option string) : M doc (option ref) :=
  let* t := createTextNode (default "" value) in
  ret (Some t).

(** [get_first_child(node)] is [first_child_getter.call(node)]. *)
Definition get_first_child (r : option ref) : M doc (option ref) :=
  firstChild r.

(** [get_next_sibling(node)] is [next_sibling_getter.call(node)]. *)
Definition get_next_sibling (r : option ref) : M doc (option ref) :=
  nextSibling r.

(** [child(node, is_text)] *)
Definition child (node : option ref) (is_text : bool) : M doc (option ref) :=
  let* hy := gets hydrating in
  if negb hy then get_first_child node
  else
    let* cursor := gets hydrate_node in
    let* c := get_first_child cursor in
    match c with
    | None =>
        let* t := create_text None in
        let* c' := appendChild cursor t in
        set_hydrate_node c' ;;
        ret c'
    | Some _ =>
        let* mismatch :=
          if is_text then
            let* ty := nodeType c in ret (negb (bool_decide (ty = Some TEXT_NODE)))
          else ret false in
        if mismatch : bool then
          let* t := create_text None in
          optional c (before c t) ;;
          set_hydrate_node t ;;
          ret t
        else
          set_hydrate_node c ;;
          ret c
    end.

(** [first_child(fragment, is_text)] *)
Definition first_child (fragment : option ref) (is_text : bool)
    : M doc (option ref) :=
  let* hy := gets hydrating in
  if negb hy then
    let* first := get_first_child fragment in
    let* placeholder :=
      let* is_comment := instanceof_Comment first in
      if is_comment : bool then
        let* dt := get_data first in ret (bool_decide (dt = Some ""%string))
      else ret false in
    if placeholder : bool then get_next_sibling first else ret first
  else
    let* cursor := gets hydrate_node in
    let* mismatch :=
      if is_text then
        let* ty := optional cursor (nodeType cursor) in
        ret (negb (bool_decide (ty = Some (Some TEXT_NODE))))
      else ret false in
    if mismatch : bool then
      let* t := create_text None in
      optional cursor (before cursor t) ;;
      set_hydrate_node t ;;
      ret t
    else ret cursor.

(** The loop [while (count--) { last_sibling = next_sibling; next_sibling =
    get_next_sibling(next_sibling); }] of [sibling], for the
    non-negative integer counts the compiler emits.  It yields
    [next_sibling] and [last_sibling]; the latter starts out
    [undefined]. *)
Fixpoint sibling_loop (count : nat) (next_sibling last_sibling : option ref)
    : M doc (option ref * option ref) :=
  match count with
  | O => ret (next_sibling, last_sibling)
  | S count' =>
      let* n := get_next_sibling next_sibling in
      sibling_loop count' n next_sibling
  end.

(** [sibling(node, count = 1, is_text = false)] *)
Definition sibling (node : option ref) (count : option nat)
    (is_text : option bool) : M doc (option ref) :=
  let count := default 1%nat count in
  let is_text := default false is_text in
  let* hy := gets hydrating in
  let* start := if hy then gets hydrate_node else ret node in
  let* (next_sibling, last_sibling) := sibling_loop count start None in
  if negb hy then ret next_sibling
  else
    let* mismatch :=
      if is_text then
        let* ty := optional next_sibling (nodeType next_sibling) in
        ret (negb (bool_decide (ty = Some (Some TEXT_NODE))))
      else ret false in
    if mismatch : bool then
      let* t := create_text None in
      match next_sibling with
      | None => optional last_sibling (after last_sibling t) ;; ret tt
      | Some _ => before next_sibling t
      end ;;
      set_hydrate_node t ;;
      ret t
    else
      set_hydrate_node next_sibling ;;
      ret next_sibling.

(** [create_fragment()] *)
Definition create_fragment : M doc (option ref) :=
  let* i := createDocumentFragment in
  ret (Some i).

(** [create_comment(data = '')] *)
Definition create_comment (dt : option string) : M doc (option ref) :=
  let* i := createComment (default "" dt) in
  ret (Some i).

(** [set_attribute(element, key, value = '')]; the result [tt] is
    [undefined], which both paths return. *)
Definition set_attribute (m : markup) (element : option ref) (key : string)
    (value : option string) : M doc unit :=
  let value := default "" value in
  if String.prefix "xlink:" key then
    setAttributeNS m element (Some "http://www.w3.org/1999/xlink") key value ;;
    ret tt
  else setAttribute m element key value.

(** ** [operations.js]: the deferred-append policy *)

(** An effect, of which this module reads the flag word [f]. *)
Record effect : Type := Effect { f : Z }.

(** The two imported variables the policy reads: [async_mode_flag] and
    [active_effect], which is [null] outside of any effect. *)
Record runtime : Type := Runtime {
  async_mode_flag : bool;
  active_effect : option effect
}.

(** [ToInt32] of an integral number. *)
Definition to_int32 (x : Z) : Z := (x + 2 ^ 31) mod 2 ^ 32 - 2 ^ 31.

(** The operator [a & b], on 32-bit integers. *)
Definition js_and (a b : Z) : Z := Z.land (to_int32 a) (to_int32 b).

Section DeferredAppend.

(** Modelled from the spec: [EFFECT_RAN] of [#client/constants], which is
    not among the sources.  It is the one bit of the effect's flag set
    that says "has this effect already run once"; the position of the
    bit is left open. *)
Variable ran_bit : Z.

Definition EFFECT_RAN : Z := 2 ^ ran_bit.

(** [should_defer_append()] *)
Definition should_defer_append (rt : runtime) : completion bool :=
  if negb (async_mode_flag rt) then Ok false
  else
    match active_effect rt with
    | None => Throw TypeError
    | Some e =>
        let flags := f e in
        Ok (negb (js_and flags EFFECT_RAN =? 0))
    end.

End DeferredAppend.

(** ** [operations.js]: the environment binding *)

Module Env.

(** The two values the module stores into slots. *)
Inductive value : Type := Undefined | Null.

(** An own data property: its value and whether it is writable. *)
Record property : Type := Property { prop_value : value; writable : bool }.

(** A prototype object of the host. *)
Record object : Type := Object {
  extensible : bool;
  own : gmap string property
}.

(** The strict-mode assignment [o.k = v] on an object whose prototype
    chain does not define [k]: an own property is overwritten when it is
    writable, a new one is added when the object is extensible, and the
    assignment throws otherwise. *)
Definition assign (k : string) (v : value) (o : object)
    : completion object :=
  match own o !! k with
  | Some p =>
      if writable p
      then Ok (Object (extensible o) (<[k := Property v true]> (own o)))
      else Throw TypeError
  | None =>
      if extensible o
      then Ok (Object true (<[k := Property v true]> (own o)))
      else Throw TypeError
  end.

(** The globals of the host and the module-level variables that
    [init_operations] sets. *)
Record env : Type := Env_ {
  DEV : bool;
  userAgent : string;                  (* navigator.userAgent *)
  element_prototype : object;          (* Element.prototype *)
  text_prototype : object;             (* Text.prototype *)
  window_bound : bool;                 (* $window !== undefined *)
  document_bound : bool;               (* $document !== undefined *)
  is_firefox : option bool;            (* None is undefined *)
  getters_bound : bool;                (* first_child_getter, next_sibling_getter *)
  array_warnings : bool                (* init_array_prototype_warnings() ran *)
}.

Definition with_element_prototype (o : object) (e : env) : env :=
  Env_ (DEV e) (userAgent e) o (text_prototype e) (window_bound e)
    (document_bound e) (is_firefox e) (getters_bound e) (array_warnings e).
Definition with_text_prototype (o : object) (e : env) : env :=
  Env_ (DEV e) (userAgent e) (element_prototype e) o (window_bound e)
    (document_bound e) (is_firefox e) (getters_bound e) (array_warnings e).
Definition bind_globals (e : env) : env :=
  Env_ (DEV e) (userAgent e) (element_prototype e) (text_prototype e) true
    true (Some (bool_decide (is_Some (String.index 0 "Firefox" (userAgent e)))))
    true (array_warnings e).
Definition install_array_warnings (e : env) : env :=
  Env_ (DEV e) (userAgent e) (element_prototype e) (text_prototype e)
    (window_bound e) (document_bound e) (is_firefox e) (getters_bound e) true.

(** [element_prototype.k = v] *)
Definition assign_element (k : string) (v : value) : M env unit :=
  fun e => match assign k v (element_prototype e) with
           | Ok o => (Ok tt, with_element_prototype o e)
           | Throw x => (Throw x, e)
           end.

(** [text_prototype.k = v] *)
Definition assign_text (k : string) (v : value) : M env unit :=
  fun e => match assign k v (text_prototype e) with
           | Ok o => (Ok tt, with_text_prototype o e)
           | Throw x => (Throw x, e)
           end.

(** [is_extensible] is [Object.isExtensible]. *)
Definition is_extensible (o : object) : bool := extensible o.

(** Modelled from the spec: [init_array_prototype_warnings] of
    [../dev/equality.js], which is not among the sources; it installs the
    collection-mutation warning hook. *)
Definition init_array_prototype_warnings : M env unit :=
  modify install_array_warnings.

(** [init_operations()] *)
Definition init_operations : M env unit :=
  let* bound := gets window_bound in
  if bound : bool then ret tt
  else
    modify bind_globals ;;
    let* ep := gets element_prototype in
    (if is_extensible ep then
       assign_element "__click" Undefined ;;
       assign_element "__className" Undefined ;;
       assign_element "__attributes" Null ;;
       assign_element "__style" Undefined ;;
       assign_element "__e" Undefined
     else ret tt) ;;
    let* tp := gets text_prototype in
    (if is_extensible tp then assign_text "__t" Undefined else ret tt) ;;
    let* dev := gets DEV in
    if dev : bool then
      assign_element "__svelte_meta" Null ;;
      init_array_prototype_warnings
    else ret tt.

(** Where the module is loaded: in a browser; in a host that has [window]
    but lacks one of the other globals read at lines 35 to 39, with the
    state of the sentinel [$window]; or in a server context, where [window]
    is not declared. *)
Inductive context : Type :=
  | Browser (e : env)
  | Partial (sentinel : bool)
  | Server.


End Env.

(** * Notions used in the statements *)

(** A computation is a read-only traversal when it leaves the document as
    it found it and its completion does not depend on the hydration
    cursor. *)
Definition read_only {A} (m : M doc A) : Prop :=
  forall d, snd (m d) = d /\
            forall c, fst (m (with_cursor c d)) = fst (m d).

(** Every child a node lists is itself a node of the heap. *)
Definition children_mapped (h : gmap ref node) : Prop :=
  map_Forall (λ _ n, Forall (λ c, is_Some (h !! c)) (childNodes n)) h.

(** The next sibling of [r] in the live tree of [d]. *)
Definition next_of (d : doc) (r : option ref) : completion (option ref) :=
  fst (get_next_sibling r d).

(** The position [count] sibling hops after [start]. *)
Fixpoint hop (d : doc) (count : nat) (start : option ref)
    : completion (option ref) :=
  match count with
  | O => Ok start
  | S n =>
      match hop d n start with
      | Ok r => next_of d r
      | Throw e => Throw e
      end
  end.

(** The last sibling reached before the landing position of [count] hops:
    the position of [count - 1] hops, and none when no hop is made. *)
Definition last_reached (d : doc) (count : nat) (start : option ref)
    : option ref :=
  match count with
  | O => None
  | S n => match hop d n start with Ok l => l | Throw _ => None end
  end.

(** Whether [r] is a text node of [d]. *)
Definition is_text_node (d : doc) (r : option ref) : bool :=
  match r with
  | Some i =>
      match heap d !! i with
      | Some n => bool_decide (node_kind n = Text)
      | None => false
      end
  | None => false
  end.

(** Where [sibling] puts the text node [t] that it creates: after the
    last sibling reached when the landing position is [null], before the
    landing node otherwise. *)
Definition place_text (landing last t : option ref) : M doc unit :=
  match landing with
  | None => match last with Some _ => after last t | None => ret tt end
  | Some _ => before landing t
  end.

(** ** Sample worlds *)

Module Sample.

(** [<p><!----></p>]: an element whose only child is a comment. *)
Definition comment_only : gmap ref node :=
  <[1%nat := Node Element "" None [2%nat] []]>
    (<[2%nat := Node Comment "" (Some 1%nat) [] []]> ∅).

(** [<p></p>]: an element without children. *)
Definition childless : gmap ref node :=
  <[1%nat := Node Element "" None [] []]> ∅.

(** A fragment [<!----><b></b>] with its leading placeholder. *)
Definition fragment : gmap ref node :=
  <[1%nat := Node DocumentFragment "" None [2%nat; 3%nat] []]>
    (<[2%nat := Node Comment "" (Some 1%nat) [] []]>
       (<[3%nat := Node Element "" (Some 1%nat) [] []]> ∅)).

(** A fragment [<b></b>hello] without placeholder. *)
Definition fragment_plain : gmap ref node :=
  <[1%nat := Node DocumentFragment "" None [2%nat; 3%nat] []]>
    (<[2%nat := Node Element "" (Some 1%nat) [] []]>
       (<[3%nat := Node Text "hello" (Some 1%nat) [] []]> ∅)).

(** Prototypes that the host has made non-extensible, in a diagnostics
    build and in a production build. *)
Definition sealed_dev : Env.env :=
  Env.Env_ true "Mozilla/5.0 Firefox/128.0" (Env.Object false ∅)
    (Env.Object false ∅) false false None false false.
Definition sealed_prod : Env.env :=
  Env.Env_ false "Mozilla/5.0 Firefox/128.0" (Env.Object false ∅)
    (Env.Object false ∅) false false None false false.

Definition html : markup := Markup (λ _, true) (λ _, true) (λ _, true).

End Sample.

(** * Further properties of the environment binding *)

(** The assignments to the prototypes and the warning hook leave the
    module's own variables and the host's globals alone. *)
Definition globals (e : Env.env) :=
  (Env.DEV e, Env.userAgent e, Env.window_bound e, Env.document_bound e,
   Env.is_firefox e, Env.getters_bound e).

(** ** What the walkers keep *)

(** From [h] to [h'] no node disappeared or changed its kind, data,
    parent or attributes, and every child list kept its entries in their
    order (it may have gained some). *)
Definition undisturbed (h h' : gmap ref node) : Prop :=
  forall i n, h !! i = Some n ->
    exists n', h' !! i = Some n' /\
      node_kind n' = node_kind n /\ data n' = data n /\
      parentNode n' = parentNode n /\ attributes n' = attributes n /\
      sublist (childNodes n) (childNodes n').

(** Whatever [h'] has that [h] had not is one empty, childless text
    node. *)
Definition only_empty_text_added (h h' : gmap ref node) : Prop :=
  forall i n', h' !! i = Some n' -> h !! i = None ->
    i = fresh (dom h) /\ node_kind n' = Text /\ data n' = ""%string /\
    childNodes n' = [] /\ attributes n' = [].

(** The children of the parent of [n]. *)
Definition siblings_of (h : gmap ref node) (n : node) : list ref :=
  match parentNode n with
  | Some p => from_option childNodes [] (h !! p)
  | None => []
  end.

(** The heap is a forest: no node lists a child twice, every listed child
    is a node whose parent is the lister, and every node that has a parent
    is listed by it. *)
Definition tree_shaped (h : gmap ref node) : Prop :=
  map_Forall
    (λ i n,
       NoDup (childNodes n) /\
       Forall (λ c, parentNode <$> h !! c = Some (Some i)) (childNodes n) /\
       (parentNode n = None \/ i ∈ siblings_of h n)) h.

(** The hydration cursor is [null] or a node of the heap. *)
Definition cursor_ok (d : doc) : Prop :=
  forall c, hydrate_node d = Some c -> is_Some (heap d !! c).

(** How the heap can differ after a walker ran: not at all; by the new
    text node [t], detached; or by [t] placed among the children of a node
    [p], at the end or next to a child [i] of [p]. *)
Definition text_placed (h h' : gmap ref node) : Prop :=
  let t := fresh (dom h) in
  h' = h \/
  h' = <[t := Node Text "" None [] []]> h \/
  exists p pn l',
    h !! p = Some pn /\
    h' = <[p := with_children l' pn]>
           (<[t := Node Text "" (Some p) [] []]> h) /\
    (l' = childNodes pn ++ [t] \/
     exists i n, h !! i = Some n /\ parentNode n = Some p /\
       (l' = splice_before i t (childNodes pn) \/
        l' = splice_after i t (childNodes pn))).

(** Where the node that a walker returns during hydration comes from: it
    is the old cursor, [null], a child that some node lists, or the text
    node just created. *)
Definition claimed (d d' : doc) (r : option ref) : Prop :=
  r = hydrate_node d \/ r = None \/
  (exists i n x, heap d !! i = Some n /\ r = Some x /\ x ∈ childNodes n) \/
  (r = Some (fresh (dom (heap d))) /\
   is_Some (heap d' !! fresh (dom (heap d)))).

(** The common shape of what a walker does to the document [d]. *)
Definition walked (d : doc) (out : completion (option ref) * doc) : Prop :=
  hydrating (snd out) = hydrating d /\
  text_placed (heap d) (heap (snd out)) /\
  (hydrating d = false -> snd out = d) /\
  match fst out with
  | Throw _ => hydrate_node (snd out) = hydrate_node d
  | Ok r =>
      hydrating d = true ->
      hydrate_node (snd out) = r /\ claimed d (snd out) r
  end.

(** After a walker ran during hydration the cursor is on the node that
    was returned, and it has not moved when the walker threw. *)
Definition cursor_follows (d : doc) (out : completion (option ref) * doc)
    : Prop :=
  match fst out with
  | Ok r => hydrate_node (snd out) = r
  | Throw _ => hydrate_node (snd out) = hydrate_node d
  end.

(** A walker left the mode as it was, disturbed no node and added at most
    one empty text node. *)
Definition keeps_nodes (d : doc) (out : completion (option ref) * doc)
    : Prop :=
  hydrating (snd out) = hydrating d /\
  undisturbed (heap d) (heap (snd out)) /\
  only_empty_text_added (heap d) (heap (snd out)).

(** A document in good order: the heap is a forest and the cursor is in
    it. *)
Definition well_formed (d : doc) : Prop :=
  tree_shaped (heap d) /\ cursor_ok d.

(** ** [clear_text_content] *)

Definition with_data (s : string) (n : node) : node :=
  Node (node_kind n) s (parentNode n) (childNodes n) (attributes n).

(** Cut the nodes of [l] loose from their parent. *)
Definition orphan (l : list ref) (h : gmap ref node) : gmap ref node :=
  foldr (λ c acc, alter (with_parent None) c acc) h l.

(** The setter [node.textContent = value].  On an element or a fragment
    all children are removed and, unless [value] is empty, one text node
    holding [value] becomes the only child; on character data the data is
    replaced; on a document nothing happens.  Assigning to a property of
    [null] throws, and an object that is not a node just takes the
    property. *)
Definition set_textContent (r : option ref) (value : string) : M doc unit :=
  match r with
  | None => throw TypeError
  | Some i =>
      let* h := gets heap in
      match h !! i with
      | None => ret tt
      | Some n =>
          match node_kind n with
          | Element | DocumentFragment =>
              modify (with_heap
                        (alter (with_children []) i (orphan (childNodes n) h))) ;;
              if bool_decide (value = ""%string) then ret tt
              else
                let* t := createTextNode value in
                insert_checked (Some i) (Some t) (λ x l, l ++ [x])
          | Text | Comment =>
              modify (with_heap (<[i := with_data value n]> h))
          | Document => ret tt
          end
      end
  end.

(** [clear_text_content(node)] *)
Definition clear_text_content (node : option ref) : M doc unit :=
  set_textContent node "".

(** A factory call made one new node of kind [k] and data [v], without
    parent or children, and returned it. *)
Definition creates (k : kind) (v : string) (d : doc)
    (out : completion (option ref) * doc) : Prop :=
  exists t,
    heap d !! t = None /\
    out = (Ok (Some t), with_heap (<[t := Node k v None [] []]> (heap d)) d).

(** Whether [r] is an element of [d]. *)
Definition is_element (d : doc) (r : option ref) : bool :=
  match r with
  | Some i =>
      match heap d !! i with
      | Some n => bool_decide (node_kind n = Element)
      | None => false
      end
  | None => false
  end.

(** The keys [set_attribute] can store on an element. *)
Definition storable (m : markup) (key : string) : bool :=
  if String.prefix "xlink:" key then valid_qualified m key
  else valid_name m key.

(** What [set_attribute] makes of the attribute list of the element at
    [el] when the key is storable. *)
Definition attribute_update (m : markup) (el : ref) (key value : string)
    (l : list attr) : list attr :=
  if String.prefix "xlink:" key then
    put_attr
      (same_ns_local (Some "http://www.w3.org/1999/xlink")
         (snd (split_qualified key)))
      (Attr (Some "http://www.w3.org/1999/xlink") (fst (split_qualified key))
         (snd (split_qualified key)) value) l
  else
    put_attr (same_qualified (stored_name m el key))
      (Attr None None (stored_name m el key) value) l.

(** ** More sample worlds *)

Module Fixture.

(** [<p><!---->hi<b></b></p>] *)
Definition row : gmap ref node :=
  <[1%nat := Node Element "" None [2%nat; 3%nat; 4%nat] []]>
    (<[2%nat := Node Comment "" (Some 1%nat) [] []]>
       (<[3%nat := Node Text "hi" (Some 1%nat) [] []]>
          (<[4%nat := Node Element "" (Some 1%nat) [] []]> ∅))).

Definition the_p : node := Node Element "" None [2%nat; 3%nat; 4%nat] [].

(** A browser with ordinary prototypes, in a diagnostics build. *)
Definition browser : Env.env :=
  Env.Env_ true "Firefox/128.0" (Env.Object true ∅) (Env.Object true ∅)
    false false None false false.

End Fixture.

(** * Properties *)

(** ** Running the primitives *)

Lemma fresh_unmapped (h : gmap ref node) : h !! fresh (dom h) = None.
Proof. apply not_elem_of_dom, is_fresh. Qed.

Lemma mapped_not_fresh (h : gmap ref node) (i : ref) (n : node) :
  h !! i = Some n -> i ≠ fresh (dom h).
Proof. intros Hi ->. rewrite fresh_unmapped in Hi. discriminate. Qed.

Lemma nodeType_text (k : kind) : nodeType_of k = TEXT_NODE <-> k = Text.
Proof. destruct k; cbv; split; congruence. Qed.

(** ** Frame conditions of the read-only accessors *)

Lemma read_only_ret {A} (a : A) : read_only (ret a).
Proof. intros d. split; reflexivity. Qed.

Lemma read_only_throw {A} (e : exn) : read_only (throw e : M doc A).
Proof. intros d. split; reflexivity. Qed.

Lemma read_only_heap : read_only (gets heap).
Proof. intros d. split; reflexivity. Qed.

Lemma read_only_bind {A B} (m : M doc A) (k : A -> M doc B) :
  read_only m -> (forall a, read_only (k a)) -> read_only (bind m k).
Proof.
  intros Hm Hk d. destruct (Hm d) as [Hs Hc]. unfold bind. split.
  - destruct (m d) as [[a|e] d'] eqn:E; simpl in Hs; subst d'; [|reflexivity].
    apply Hk.
  - intros c. destruct (Hm (with_cursor c d)) as [Hs' _]. specialize (Hc c).
    destruct (m d) as [[a|e] d'] eqn:E; simpl in Hs; subst d';
      destruct (m (with_cursor c d)) as [r d''] eqn:E';
      simpl in Hs', Hc; subst d'' r; [|reflexivity].
    apply Hk.
Qed.

Create HintDb frame.

#[local] Hint Resolve read_only_ret read_only_throw read_only_heap : frame.

Lemma read_only_deref (r : option ref) : read_only (deref r).
Proof.
  destruct r as [i|]; simpl; [|auto with frame].
  apply read_only_bind; [auto with frame|].
  intros h. destruct (h !! i); auto with frame.
Qed.

Lemma read_only_get_first_child (r : option ref) :
  read_only (get_first_child r).
Proof.
  apply read_only_bind; [apply read_only_deref|].
  intros [i n]. auto with frame.
Qed.

Lemma read_only_get_next_sibling (r : option ref) :
  read_only (get_next_sibling r).
Proof.
  apply read_only_bind; [apply read_only_deref|].
  intros [i n]. destruct (parentNode n) as [p|]; [|auto with frame].
  apply read_only_bind; [auto with frame|].
  intros h. destruct (h !! p); auto with frame.
Qed.

Lemma read_only_instanceof_Comment (r : option ref) :
  read_only (instanceof_Comment r).
Proof.
  destruct r as [i|]; simpl; [|auto with frame].
  apply read_only_bind; auto with frame.
Qed.

Lemma read_only_get_data (r : option ref) : read_only (get_data r).
Proof.
  destruct r as [i|]; simpl; [|auto with frame].
  apply read_only_bind; auto with frame.
Qed.

Lemma read_only_sibling_loop (count : nat) (next last : option ref) :
  read_only (sibling_loop count next last).
Proof.
  revert next last. induction count as [|count IH]; intros next last; simpl.
  - auto with frame.
  - apply read_only_bind; [apply read_only_get_next_sibling|].
    intros n. apply IH.
Qed.

#[local] Hint Resolve read_only_deref read_only_get_first_child
  read_only_get_next_sibling read_only_instanceof_Comment read_only_get_data
  read_only_sibling_loop : frame.

Lemma child_not_hydrating (d : doc) node is_text :
  hydrating d = false -> child node is_text d = get_first_child node d.
Proof. intros H. unfold child, bind, gets. rewrite H. reflexivity. Qed.

Lemma first_child_not_hydrating (d : doc) fragment is_text :
  hydrating d = false ->
  first_child fragment is_text d =
    (let* first := get_first_child fragment in
     let* placeholder :=
       let* is_comment := instanceof_Comment first in
       if is_comment : bool then
         let* dt := get_data first in ret (bool_decide (dt = Some ""%string))
       else ret false in
     if placeholder : bool then get_next_sibling first else ret first) d.
Proof. intros H. unfold first_child at 1, bind at 1, gets at 1. rewrite H. reflexivity. Qed.

Lemma sibling_not_hydrating (d : doc) node count is_text :
  hydrating d = false ->
  sibling node count is_text d =
    (let* (next_sibling, _) := sibling_loop (default 1%nat count) node None in
     ret next_sibling) d.
Proof.
  intros H. unfold sibling at 1, bind at 1, gets at 1. rewrite H.
  unfold bind, ret. simpl.
  destruct (sibling_loop _ _ _ _) as [[[n l]|e] d']; reflexivity.
Qed.

Lemma read_only_first_child_body (fragment : option ref) :
  read_only
    (let* first := get_first_child fragment in
     let* placeholder :=
       let* is_comment := instanceof_Comment first in
       if is_comment : bool then
         let* dt := get_data first in ret (bool_decide (dt = Some ""%string))
       else ret false in
     if placeholder : bool then get_next_sibling first else ret first).
Proof.
  apply read_only_bind; [auto with frame|]. intros first.
  apply read_only_bind.
  - apply read_only_bind; [auto with frame|]. intros [|]; [|auto with frame].
    apply read_only_bind; auto with frame.
  - intros [|]; auto with frame.
Qed.

Lemma read_only_sibling_body (node : option ref) (count : nat) :
  read_only
    (let* (next_sibling, _) := sibling_loop count node None in
     ret next_sibling).
Proof.
  apply read_only_bind; [auto with frame|]. intros [n l]. auto with frame.
Qed.

(** C3.  Outside hydration [first_child], [child] and [sibling] are
    read-only traversals: each leaves the document (the heap of nodes and
    the hydration cursor) exactly as it found it, so no node is created,
    inserted or moved and the cursor is not written; and what each returns
    or throws is the same whatever the cursor holds, so the cursor is not
    read. *)
Theorem walkers_read_only_when_not_hydrating
    (d : doc) (node : option ref) (is_text : bool)
    (count : option nat) (expect : option bool) :
  hydrating d = false ->
  (snd (first_child node is_text d) = d /\
   forall c, fst (first_child node is_text (with_cursor c d))
             = fst (first_child node is_text d)) /\
  (snd (child node is_text d) = d /\
   forall c, fst (child node is_text (with_cursor c d))
             = fst (child node is_text d)) /\
  (snd (sibling node count expect d) = d /\
   forall c, fst (sibling node count expect (with_cursor c d))
             = fst (sibling node count expect d)).
Proof.
  intros H.
  assert (Hc : forall c, hydrating (with_cursor c d) = false) by (intros c; exact H).
  repeat split; intros;
    rewrite ?first_child_not_hydrating, ?child_not_hydrating,
            ?sibling_not_hydrating by auto.
  - apply read_only_first_child_body.
  - apply read_only_first_child_body.
  - apply read_only_get_first_child.
  - apply read_only_get_first_child.
  - apply read_only_sibling_body.
  - apply read_only_sibling_body.
Qed.

Lemma following_head (c : ref) (rest : list ref) :
  following c (c :: rest) = head rest.
Proof. simpl. rewrite decide_True by reflexivity. reflexivity. Qed.

Ltac run :=
  unfold get_first_child, get_next_sibling, firstChild, nextSibling,
    instanceof_Comment, get_data, nodeType, deref, optional, set_hydrate_node,
    create_text, createTextNode, bind, gets, modify, ret, throw; simpl.

(** C5.  Outside hydration, when the first child of the fragment is a
    comment node with empty data, [first_child] (whatever [is_text] is, so
    in particular for [is_text = false]) returns the next sibling of that
    comment, which is not the comment itself; when the first child is
    anything else (another node, or [null] for an empty fragment) it
    returns that first child.  The document is left as it was. *)
Theorem first_child_skips_placeholder
    (d : doc) (fragment : ref) (fn : node) (is_text : bool) :
  hydrating d = false ->
  heap d !! fragment = Some fn ->
  (forall c cn rest,
      childNodes fn = c :: rest ->
      heap d !! c = Some cn ->
      node_kind cn = Comment -> data cn = ""%string ->
      parentNode cn = Some fragment ->
      NoDup (c :: rest) ->
      first_child (Some fragment) is_text d = (Ok (head rest), d) /\
      get_next_sibling (Some c) d = (Ok (head rest), d) /\
      head rest ≠ Some c) /\
  (forall first,
      head (childNodes fn) = first ->
      (forall c cn, first = Some c -> heap d !! c = Some cn ->
                    ~ (node_kind cn = Comment /\ data cn = ""%string)) ->
      first_child (Some fragment) is_text d = (Ok first, d)).
Proof.
  intros Hh Hf. split.
  - intros c cn rest Hl Hc Hk Hd Hp Hnd.
    rewrite first_child_not_hydrating by assumption.
    run. rewrite Hf. simpl. rewrite Hl. simpl. rewrite Hc. simpl.
    rewrite Hk. simpl. rewrite Hc. simpl. rewrite Hd. simpl.
    rewrite Hc, Hp, Hf, Hl, following_head.
    repeat split. intros E. apply NoDup_cons in Hnd as [Hn _].
    destruct rest as [|x rest]; [discriminate|]. simpl in E.
    injection E as ->. apply Hn. left.
  - intros first Hfirst Hother.
    rewrite first_child_not_hydrating by assumption.
    run. rewrite Hf. simpl. rewrite Hfirst.
    destruct first as [c|]; [|reflexivity].
    destruct (heap d !! c) as [cn|] eqn:Hc; simpl; [|reflexivity].
    destruct (bool_decide_reflect (node_kind cn = Comment)) as [Hk|Hk];
      [|reflexivity].
    rewrite Hc. simpl.
    destruct (bool_decide_reflect (Some (data cn) = Some ""%string)) as [Hd|Hd];
      [|reflexivity].
    exfalso. apply (Hother c cn eq_refl Hc). split; congruence.
Qed.

(** ** Inserting a parentless node *)

Lemma unlink_parentless (h : gmap ref node) (new : ref) (nn : node) :
  h !! new = Some nn -> parentNode nn = None -> unlink new h = h.
Proof. intros Hn Hp. unfold unlink. rewrite Hn, Hp. reflexivity. Qed.

Lemma alter_mapped (h : gmap ref node) (g : node -> node) (i : ref) (n : node) :
  h !! i = Some n -> alter g i h = <[i := g n]> h.
Proof.
  intros Hi. apply map_eq. intros j. rewrite lookup_alter, lookup_insert.
  destruct (decide (i = j)) as [->|]; [rewrite Hi|]; reflexivity.
Qed.

Lemma adopt_parentless (h : gmap ref node) (p new : ref) (pn nn : node)
    (place : list ref -> list ref) :
  h !! p = Some pn -> h !! new = Some nn -> parentNode nn = None -> p ≠ new ->
  adopt p new place h =
    <[p := with_children (place (childNodes pn)) pn]>
      (<[new := with_parent (Some p) nn]> h).
Proof.
  intros Hp Hn Hnp Hne. unfold adopt.
  rewrite (unlink_parentless h new nn) by assumption.
  rewrite (alter_mapped h _ new nn) by assumption.
  rewrite (alter_mapped _ (λ qn, with_children (place (childNodes qn)) qn) p pn).
  - reflexivity.
  - rewrite lookup_insert_ne by congruence. assumption.
Qed.

Lemma insert_checked_run (d : doc) (p new : ref) (pn nn : node)
    (place : ref -> list ref -> list ref) :
  heap d !! p = Some pn -> heap d !! new = Some nn ->
  parentNode nn = None -> p ≠ new ->
  accepts (node_kind pn) (node_kind nn) = true ->
  insert_checked (Some p) (Some new) place d =
    (Ok tt,
     with_heap (<[p := with_children (place new (childNodes pn)) pn]>
                  (<[new := with_parent (Some p) nn]> (heap d))) d).
Proof.
  intros Hp Hn Hnp Hne Hacc. unfold insert_checked. run.
  rewrite Hp. simpl. rewrite Hn. simpl. rewrite Hacc. simpl.
  rewrite (adopt_parentless _ p new pn nn) by assumption. reflexivity.
Qed.

Lemma insert_checked_refused (d : doc) (p new : ref) (pn nn : node)
    (place : ref -> list ref -> list ref) :
  heap d !! p = Some pn -> heap d !! new = Some nn ->
  accepts (node_kind pn) (node_kind nn) = false ->
  insert_checked (Some p) (Some new) place d = (Throw HierarchyRequestError, d).
Proof.
  intros Hp Hn Hacc. unfold insert_checked. run.
  rewrite Hp. simpl. rewrite Hn. simpl. rewrite Hacc. reflexivity.
Qed.

Lemma before_run (d : doc) (i p new : ref) (n pn nn : node) :
  heap d !! i = Some n -> is_child_node (node_kind n) = true ->
  parentNode n = Some p ->
  heap d !! p = Some pn -> heap d !! new = Some nn ->
  parentNode nn = None -> p ≠ new ->
  accepts (node_kind pn) (node_kind nn) = true ->
  before (Some i) (Some new) d =
    (Ok tt,
     with_heap (<[p := with_children (splice_before i new (childNodes pn)) pn]>
                  (<[new := with_parent (Some p) nn]> (heap d))) d).
Proof.
  intros Hi Hk Hip Hp Hn Hnp Hne Hacc. unfold before.
  unfold bind at 1. unfold deref, bind, gets, ret. rewrite Hi, Hk, Hip.
  exact (insert_checked_run d p new pn nn _ Hp Hn Hnp Hne Hacc).
Qed.

Lemma after_run (d : doc) (i p new : ref) (n pn nn : node) :
  heap d !! i = Some n -> is_child_node (node_kind n) = true ->
  parentNode n = Some p ->
  heap d !! p = Some pn -> heap d !! new = Some nn ->
  parentNode nn = None -> p ≠ new ->
  accepts (node_kind pn) (node_kind nn) = true ->
  after (Some i) (Some new) d =
    (Ok tt,
     with_heap (<[p := with_children (splice_after i new (childNodes pn)) pn]>
                  (<[new := with_parent (Some p) nn]> (heap d))) d).
Proof.
  intros Hi Hk Hip Hp Hn Hnp Hne Hacc. unfold after.
  unfold bind at 1. unfold deref, bind, gets, ret. rewrite Hi, Hk, Hip.
  exact (insert_checked_run d p new pn nn _ Hp Hn Hnp Hne Hacc).
Qed.



Lemma after_parentless (d : doc) (i : ref) (n : node) (new : option ref) :
  heap d !! i = Some n -> is_child_node (node_kind n) = true ->
  parentNode n = None ->
  after (Some i) new d = (Ok tt, d).
Proof.
  intros Hi Hk Hp. unfold after. run. rewrite Hi. simpl. rewrite Hk, Hp.
  reflexivity.
Qed.

Lemma after_no_method (d : doc) (i : ref) (n : node) (new : option ref) :
  heap d !! i = Some n -> is_child_node (node_kind n) = false ->
  after (Some i) new d = (Throw TypeError, d).
Proof.
  intros Hi Hk. unfold after. run. rewrite Hi. simpl. rewrite Hk. reflexivity.
Qed.

Lemma appendChild_run (d : doc) (p new : ref) (pn nn : node) :
  heap d !! p = Some pn -> heap d !! new = Some nn ->
  parentNode nn = None -> p ≠ new ->
  accepts (node_kind pn) (node_kind nn) = true ->
  appendChild (Some p) (Some new) d =
    (Ok (Some new),
     with_heap (<[p := with_children (childNodes pn ++ [new]) pn]>
                  (<[new := with_parent (Some p) nn]> (heap d))) d).
Proof.
  intros Hp Hn Hnp Hne Hacc. unfold appendChild, bind at 1.
  rewrite (insert_checked_run d p new pn nn) by assumption. reflexivity.
Qed.

Lemma create_text_run (d : doc) (value : option string) :
  create_text value d =
    (Ok (Some (fresh (dom (heap d)))),
     with_heap (<[fresh (dom (heap d)) := Node Text (default "" value) None [] []]>
                  (heap d)) d).
Proof. reflexivity. Qed.

Lemma splice_before_split (i new : ref) (l1 l2 : list ref) :
  i ∉ l1 -> splice_before i new (l1 ++ i :: l2) = l1 ++ new :: i :: l2.
Proof.
  induction l1 as [|x l1 IH]; simpl; intros Hn.
  - rewrite decide_True by reflexivity. reflexivity.
  - apply not_elem_of_cons in Hn as [Hx Hn].
    rewrite decide_False by congruence. rewrite IH by assumption. reflexivity.
Qed.

Lemma splice_after_split (i new : ref) (l1 l2 : list ref) :
  i ∉ l1 -> splice_after i new (l1 ++ i :: l2) = l1 ++ i :: new :: l2.
Proof.
  induction l1 as [|x l1 IH]; simpl; intros Hn.
  - rewrite decide_True by reflexivity. reflexivity.
  - apply not_elem_of_cons in Hn as [Hx Hn].
    rewrite decide_False by congruence. rewrite IH by assumption. reflexivity.
Qed.

Lemma following_split (i : ref) (l1 l2 : list ref) :
  i ∉ l1 -> following i (l1 ++ i :: l2) = head l2.
Proof.
  induction l1 as [|x l1 IH]; simpl; intros Hn.
  - rewrite decide_True by reflexivity. reflexivity.
  - apply not_elem_of_cons in Hn as [Hx Hn].
    rewrite decide_False by congruence. apply IH. assumption.
Qed.

Lemma dom_after_insertion (h : gmap ref node) (p t : ref) (pn x y : node) :
  h !! p = Some pn -> dom (<[p := x]> (<[t := y]> h)) = {[t]} ∪ dom h.
Proof.
  intros Hp. rewrite !dom_insert_L. apply elem_of_dom_2 in Hp.
  apply set_eq. intros i. rewrite !elem_of_union, !elem_of_singleton.
  split.
  - intros [->|[->|Hi]]; auto.
  - intros [->|Hi]; auto.
Qed.

(** ** Repairs made by [child] during hydration *)

(** C1.  In hydration mode, with the cursor on an element whose only child
    is a comment node, [child] with [is_text = true] creates a new empty
    text node, makes it the element's first child immediately before the
    comment, leaves the comment in the tree as the next sibling of the new
    node, sets the hydration cursor to the new node and returns it; the
    [node] argument plays no part, the heap gains that one node and no
    other node changes. *)
Theorem child_inserts_text_before_comment
    (d : doc) (node : option ref) (p c : ref) (pn cn : Dom.node) :
  hydrating d = true ->
  hydrate_node d = Some p ->
  heap d !! p = Some pn -> node_kind pn = Element -> childNodes pn = [c] ->
  heap d !! c = Some cn -> node_kind cn = Comment -> parentNode cn = Some p ->
  exists t d',
    child node true d = (Ok (Some t), d') /\
    heap d !! t = None /\
    heap d' !! t = Some (Node Text "" (Some p) [] []) /\
    heap d' !! p = Some (with_children [t; c] pn) /\
    heap d' !! c = Some cn /\
    get_first_child (Some p) d' = (Ok (Some t), d') /\
    get_next_sibling (Some t) d' = (Ok (Some c), d') /\
    hydrate_node d' = Some t /\
    hydrating d' = true /\
    dom (heap d') = {[t]} ∪ dom (heap d) /\
    (forall i, i ≠ t -> i ≠ p -> heap d' !! i = heap d !! i).
Proof.
  intros Hh Hcur Hp Hpk Hpc Hc Hck Hcp.
  destruct d as [h hy cur]. simpl in *. subst hy cur.
  set (t := fresh (dom h)).
  assert (Ht : h !! t = None) by apply fresh_unmapped.
  assert (Hpt : p ≠ t) by (eapply mapped_not_fresh; eassumption).
  assert (Hct : c ≠ t) by (eapply mapped_not_fresh; eassumption).
  assert (Hpc' : p ≠ c) by (intros ->; congruence).
  exists t,
    (Doc (<[p := with_children [t; c] pn]>
            (<[t := Node Text "" (Some p) [] []]> h)) true (Some t)).
  split.
  - unfold child. run. rewrite Hp. simpl. rewrite Hpc. simpl.
    rewrite Hc. simpl. rewrite Hck. simpl. fold t.
    rewrite (before_run _ c p t cn pn (Node Text "" None [] [])); simpl;
      rewrite ?lookup_insert_eq, ?lookup_insert_ne by congruence;
      try rewrite Hpk; try rewrite Hck; try done.
    rewrite Hpc. simpl. rewrite decide_True by reflexivity.
    unfold with_cursor, with_heap, with_parent. simpl.
    rewrite insert_insert_eq. reflexivity.
  - simpl. repeat split.
    + assumption.
    + rewrite lookup_insert_ne by congruence. apply lookup_insert_eq.
    + apply lookup_insert_eq.
    + rewrite !lookup_insert_ne by congruence. assumption.
    + run. rewrite lookup_insert_eq. reflexivity.
    + run. rewrite lookup_insert_ne by congruence. rewrite lookup_insert_eq.
      simpl. rewrite lookup_insert_eq. simpl.
      rewrite decide_True by reflexivity. reflexivity.
    + eapply dom_after_insertion; eassumption.
    + intros i Hit Hip. rewrite !lookup_insert_ne by congruence. reflexivity.
Qed.

(** C2.  In hydration mode, with the cursor on an element that has no
    children, [child] (whatever [is_text] is, so in particular for
    [is_text = true]) creates one new empty text node, appends it so that
    it is the element's only child, sets the hydration cursor to it and
    returns it; the heap gains that one node and no other node changes. *)
Theorem child_appends_text_to_empty_element
    (d : doc) (node : option ref) (is_text : bool) (p : ref) (pn : Dom.node) :
  hydrating d = true ->
  hydrate_node d = Some p ->
  heap d !! p = Some pn -> node_kind pn = Element -> childNodes pn = [] ->
  exists t d',
    child node is_text d = (Ok (Some t), d') /\
    heap d !! t = None /\
    heap d' !! t = Some (Node Text "" (Some p) [] []) /\
    heap d' !! p = Some (with_children [t] pn) /\
    get_first_child (Some p) d' = (Ok (Some t), d') /\
    get_next_sibling (Some t) d' = (Ok None, d') /\
    hydrate_node d' = Some t /\
    hydrating d' = true /\
    dom (heap d') = {[t]} ∪ dom (heap d) /\
    (forall i, i ≠ t -> i ≠ p -> heap d' !! i = heap d !! i).
Proof.
  intros Hh Hcur Hp Hpk Hpc.
  destruct d as [h hy cur]. simpl in *. subst hy cur.
  set (t := fresh (dom h)).
  assert (Ht : h !! t = None) by apply fresh_unmapped.
  assert (Hpt : p ≠ t) by (eapply mapped_not_fresh; eassumption).
  exists t,
    (Doc (<[p := with_children [t] pn]>
            (<[t := Node Text "" (Some p) [] []]> h)) true (Some t)).
  split.
  - unfold child. run. rewrite Hp. simpl. rewrite Hpc. simpl. fold t.
    rewrite (appendChild_run _ p t pn (Node Text "" None [] [])); simpl;
      rewrite ?lookup_insert_eq, ?lookup_insert_ne by congruence;
      try rewrite Hpk; try done.
    rewrite Hpc. simpl.
    unfold with_cursor, with_heap, with_parent. simpl.
    rewrite insert_insert_eq. reflexivity.
  - simpl. repeat split.
    + assumption.
    + rewrite lookup_insert_ne by congruence. apply lookup_insert_eq.
    + apply lookup_insert_eq.
    + run. rewrite lookup_insert_eq. reflexivity.
    + run. rewrite lookup_insert_ne by congruence. rewrite lookup_insert_eq.
      simpl. rewrite lookup_insert_eq. simpl.
      rewrite decide_True by reflexivity. reflexivity.
    + eapply dom_after_insertion; eassumption.
    + intros i Hit Hip. rewrite !lookup_insert_ne by congruence. reflexivity.
Qed.

(** ** [first_child] on an exhausted tree *)

(** C9.  In hydration mode with the cursor at [null], [first_child] with
    [is_text = true] does not throw: it creates a new empty text node, sets
    the cursor to it and returns it.  The node stays detached: it has no
    parent, every node that was there is unchanged, and (in a heap whose
    child lists name nodes only) no node lists it as a child. *)
Theorem first_child_null_cursor_leaves_text_detached
    (d : doc) (fragment : option ref) :
  hydrating d = true ->
  hydrate_node d = None ->
  exists t d',
    first_child fragment true d = (Ok (Some t), d') /\
    heap d !! t = None /\
    heap d' !! t = Some (Node Text "" None [] []) /\
    get_next_sibling (Some t) d' = (Ok None, d') /\
    hydrate_node d' = Some t /\
    hydrating d' = true /\
    (forall i, i ≠ t -> heap d' !! i = heap d !! i) /\
    (children_mapped (heap d) ->
     forall i n, heap d' !! i = Some n -> t ∉ childNodes n).
Proof.
  intros Hh Hcur. destruct d as [h hy cur]. simpl in *. subst hy cur.
  set (t := fresh (dom h)).
  assert (Ht : h !! t = None) by apply fresh_unmapped.
  exists t, (Doc (<[t := Node Text "" None [] []]> h) true (Some t)).
  repeat split; simpl.
  - assumption.
  - apply lookup_insert_eq.
  - run. rewrite lookup_insert_eq. reflexivity.
  - intros i Hi. apply lookup_insert_ne. congruence.
  - intros Hcl i n Hi Hin.
    rewrite lookup_insert in Hi. destruct (decide (t = i)) as [<-|Hne].
    + injection Hi as <-. simpl in Hin. inversion Hin.
    + specialize (Hcl i n Hi). simpl in Hcl.
      rewrite Forall_forall in Hcl. destruct (Hcl t Hin) as [x Hx].
      congruence.
Qed.

(** ** [sibling] during hydration *)

Lemma get_next_sibling_next_of (d : doc) (r : option ref) :
  get_next_sibling r d = (next_of d r, d).
Proof.
  unfold next_of. destruct (read_only_get_next_sibling r d) as [Hs _].
  destruct (get_next_sibling r d) as [x d']. simpl in *. congruence.
Qed.

Lemma hop_first_step (d : doc) (n : nat) (start x : option ref) :
  next_of d start = Ok x -> hop d (S n) start = hop d n x.
Proof.
  intros Hx. induction n as [|n IH].
  - exact Hx.
  - change (hop d (S (S n)) start)
      with (match hop d (S n) start with
            | Ok r => next_of d r
            | Throw e => Throw e
            end).
    rewrite IH. reflexivity.
Qed.

Lemma hop_first_throw (d : doc) (n : nat) (start : option ref) (e : exn) :
  next_of d start = Throw e -> hop d (S n) start = Throw e.
Proof.
  intros Hx. induction n as [|n IH].
  - exact Hx.
  - change (hop d (S (S n)) start)
      with (match hop d (S n) start with
            | Ok r => next_of d r
            | Throw e => Throw e
            end).
    rewrite IH. reflexivity.
Qed.

(** The loop of [sibling] makes [count] hops and remembers the position
    it hopped from last. *)
Lemma sibling_loop_hops (d : doc) (count : nat) (start last : option ref) :
  sibling_loop count start last d =
    (match hop d count start with
     | Ok landing =>
         Ok (landing,
             match count with
             | O => last
             | S _ => last_reached d count start
             end)
     | Throw e => Throw e
     end, d).
Proof.
  revert start last. induction count as [|n IH]; intros start last.
  - reflexivity.
  - change (sibling_loop (S n) start last)
      with (let* x := get_next_sibling start in sibling_loop n x start).
    unfold bind. rewrite get_next_sibling_next_of.
    destruct (next_of d start) as [x|e] eqn:Hx.
    + rewrite IH, (hop_first_step d n start x Hx).
      destruct (hop d n x) as [landing|e] eqn:Hl; [|reflexivity].
      do 3 f_equal. unfold last_reached. destruct n as [|m].
      * reflexivity.
      * rewrite (hop_first_step d m start x Hx). reflexivity.
    + rewrite (hop_first_throw d n start e Hx). reflexivity.
Qed.

Lemma text_mismatch_run (d : doc) (r : option ref) :
  (let* ty := optional r (nodeType r) in
   ret (negb (bool_decide (ty = Some (Some TEXT_NODE))))) d
  = (Ok (negb (is_text_node d r)), d).
Proof.
  destruct r as [i|]; [|reflexivity]. run. unfold is_text_node.
  destruct (heap d !! i) as [n|]; simpl; [|reflexivity].
  do 2 f_equal. f_equal. apply bool_decide_ext. rewrite <- nodeType_text.
  split; congruence.
Qed.

Lemma sibling_hydrating_run (d : doc) (node : option ref)
    (count : option nat) (is_text : option bool) :
  hydrating d = true ->
  sibling node count is_text d =
    match hop d (default 1%nat count) (hydrate_node d) with
    | Throw e => (Throw e, d)
    | Ok landing =>
        if default false is_text && negb (is_text_node d landing) then
          let t := fresh (dom (heap d)) in
          let d1 := with_heap (<[t := Node Text "" None [] []]> (heap d)) d in
          match place_text landing
                  (last_reached d (default 1%nat count) (hydrate_node d))
                  (Some t) d1 with
          | (Ok _, d2) => (Ok (Some t), with_cursor (Some t) d2)
          | (Throw e, d2) => (Throw e, d2)
          end
        else (Ok landing, with_cursor landing d)
    end.
Proof.
  intros Hh. unfold sibling.
  unfold bind at 1. unfold gets at 1. rewrite Hh.
  unfold bind at 1. unfold gets at 1.
  unfold bind at 1. rewrite sibling_loop_hops.
  destruct (hop d (default 1%nat count) (hydrate_node d)) as [landing|e];
    [|reflexivity].
  cbn [negb].
  set (n := default 1%nat count).
  replace (match n with
           | O => None
           | S _ => last_reached d n (hydrate_node d)
           end) with (last_reached d n (hydrate_node d))
    by (destruct n; reflexivity).
  set (last := last_reached d n (hydrate_node d)).
  unfold bind at 1.
  destruct (default false is_text); simpl andb.
  - rewrite text_mismatch_run.
    destruct (is_text_node d landing); cbn [negb]; [reflexivity|].
    unfold bind at 1. rewrite create_text_run.
    unfold bind at 1. unfold place_text.
    destruct landing as [l|].
    + destruct (before _ _ _) as [[u|e] d2]; reflexivity.
    + destruct last as [l|]; simpl.
      * unfold bind at 1. unfold bind at 1.
        destruct (after _ _ _) as [[u|e] d2]; reflexivity.
      * reflexivity.
  - reflexivity.
Qed.

Lemma following_lookup (l : list ref) (j : nat) (x : ref) :
  NoDup l -> l !! j = Some x -> following x l = l !! S j.
Proof.
  revert j. induction l as [|y l IH]; intros j Hnd Hj; [discriminate|].
  apply NoDup_cons in Hnd as [Hy Hnd]. simpl. destruct j as [|j]; simpl in Hj.
  - injection Hj as ->. rewrite decide_True by reflexivity.
    destruct l; reflexivity.
  - rewrite decide_False.
    + apply IH; assumption.
    + intros ->. apply Hy. eapply list_elem_of_lookup_2. eassumption.
Qed.

Lemma next_of_child (d : doc) (p : ref) (pn : node) (j : nat) (x : ref) :
  heap d !! p = Some pn -> NoDup (childNodes pn) ->
  Forall (λ c, parentNode <$> heap d !! c = Some (Some p)) (childNodes pn) ->
  childNodes pn !! j = Some x ->
  next_of d (Some x) = Ok (childNodes pn !! S j).
Proof.
  intros Hp Hnd Hall Hj.
  rewrite Forall_forall in Hall.
  specialize (Hall x (list_elem_of_lookup_2 _ _ _ Hj)).
  destruct (heap d !! x) as [xn|] eqn:Hx; [|discriminate].
  simpl in Hall. injection Hall as Hxp.
  unfold next_of. run. rewrite Hx. simpl. rewrite Hxp, Hp. simpl.
  rewrite (following_lookup _ j) by assumption. reflexivity.
Qed.

Lemma hop_by_index (d : doc) (p : ref) (pn : node) (i k : nat) (c : ref) :
  heap d !! p = Some pn -> NoDup (childNodes pn) ->
  Forall (λ c, parentNode <$> heap d !! c = Some (Some p)) (childNodes pn) ->
  childNodes pn !! i = Some c ->
  hop d k (Some c) =
    if decide (i + k <= length (childNodes pn))%nat
    then Ok (childNodes pn !! (i + k)%nat) else Throw TypeError.
Proof.
  intros Hp Hnd Hall Hi. induction k as [|k IH].
  - simpl. rewrite Nat.add_0_r, Hi.
    rewrite decide_True; [reflexivity|].
    apply Nat.lt_le_incl. eapply lookup_lt_Some. eassumption.
  - simpl. rewrite IH. clear IH.
    destruct (decide (i + k <= length (childNodes pn))%nat) as [Hle|Hgt].
    + destruct (childNodes pn !! (i + k)%nat) as [x|] eqn:Hx.
      * rewrite (next_of_child d p pn (i + k) x) by assumption.
        apply lookup_lt_Some in Hx.
        rewrite decide_True by lia. rewrite Nat.add_succ_r. reflexivity.
      * apply lookup_ge_None in Hx. rewrite decide_False by lia. reflexivity.
    + rewrite decide_False by lia. reflexivity.
Qed.

Lemma last_reached_by_index (d : doc) (p : ref) (pn : node) (i m : nat)
    (c : ref) :
  heap d !! p = Some pn -> NoDup (childNodes pn) ->
  Forall (λ c, parentNode <$> heap d !! c = Some (Some p)) (childNodes pn) ->
  childNodes pn !! i = Some c ->
  (i + m <= length (childNodes pn))%nat ->
  last_reached d (S m) (Some c) = childNodes pn !! (i + m)%nat.
Proof.
  intros Hp Hnd Hall Hi Hle. unfold last_reached.
  rewrite (hop_by_index d p pn i m c) by assumption.
  rewrite decide_True by assumption. reflexivity.
Qed.

Lemma lookup_not_in_take (l : list ref) (j : nat) (x : ref) :
  NoDup l -> l !! j = Some x -> x ∉ take j l.
Proof.
  intros Hnd Hj Hin. apply list_elem_of_lookup in Hin as [k Hk].
  assert (Hlt : (k < j)%nat).
  { apply lookup_lt_Some in Hk. rewrite length_take in Hk. lia. }
  rewrite lookup_take_lt in Hk by assumption.
  rewrite NoDup_alt in Hnd. specialize (Hnd _ _ _ Hk Hj). lia.
Qed.

Lemma splice_before_at (l : list ref) (j : nat) (x t : ref) :
  NoDup l -> l !! j = Some x ->
  splice_before x t l = take j l ++ t :: drop j l.
Proof.
  intros Hnd Hj.
  rewrite <- (take_drop_middle l j x Hj) at 1.
  rewrite splice_before_split by (eapply lookup_not_in_take; eassumption).
  rewrite (drop_S l x j Hj). reflexivity.
Qed.

Lemma splice_after_last (l : list ref) (j : nat) (y t : ref) :
  NoDup l -> l !! j = Some y -> S j = length l ->
  splice_after y t l = l ++ [t].
Proof.
  intros Hnd Hj Hlen.
  rewrite <- (take_drop_middle l j y Hj) at 1 2.
  rewrite splice_after_split by (eapply lookup_not_in_take; eassumption).
  rewrite drop_ge by lia. rewrite <- app_assoc. reflexivity.
Qed.

(** C4.  In hydration mode [sibling] makes its [count] hops (one when
    [count] is omitted) from the hydration cursor and not from its [node]
    argument, which has no influence on the outcome.  When a hop is
    attempted from [null] the accessor's exception propagates and nothing
    changes.  Otherwise, when [is_text] is true and the landing position is
    not a text node, it creates an empty text node, places it after the
    last sibling reached if the landing position is [null] and before the
    landing node if not, sets the cursor to the new node and returns it;
    in every other case it sets the cursor to the landing position and
    returns that.  The last part says where this is in the tree: with the
    cursor on the child at index [i] of a parent that takes text, lists no
    child twice and is the parent of each, the landing position is the
    child at index [i + count]; a new text node is put into the child list
    at that index, or at the end when the landing position is one past the
    last child; and the call throws when it is further out. *)
Theorem sibling_hydrating_walks_from_cursor
    (d : doc) (node : option ref) (count : option nat) (is_text : option bool) :
  hydrating d = true ->
  let n := default 1%nat count in
  let expect := default false is_text in
  let cursor := hydrate_node d in
  let t := fresh (dom (heap d)) in
  (forall node', sibling node' count is_text d = sibling node count is_text d) /\
  (forall e, hop d n cursor = Throw e ->
     sibling node count is_text d = (Throw e, d)) /\
  (forall landing, hop d n cursor = Ok landing ->
     expect && negb (is_text_node d landing) = false ->
     sibling node count is_text d = (Ok landing, with_cursor landing d)) /\
  (forall landing, hop d n cursor = Ok landing ->
     expect && negb (is_text_node d landing) = true ->
     sibling node count is_text d =
       match place_text landing (last_reached d n cursor) (Some t)
               (with_heap (<[t := Node Text "" None [] []]> (heap d)) d) with
       | (Ok _, d') => (Ok (Some t), with_cursor (Some t) d')
       | (Throw e, d') => (Throw e, d')
       end) /\
  (forall c p pn i,
     cursor = Some c ->
     heap d !! p = Some pn -> accepts (node_kind pn) Text = true ->
     NoDup (childNodes pn) ->
     Forall (λ x, parentNode <$> heap d !! x = Some (Some p)) (childNodes pn) ->
     childNodes pn !! i = Some c ->
     let l := childNodes pn in
     let j := (i + n)%nat in
     (forall x xn, l !! j = Some x -> heap d !! x = Some xn ->
        (expect = true ->
         node_kind xn = Element \/ node_kind xn = Comment ->
         sibling node count is_text d =
           (Ok (Some t),
            Doc (<[p := with_children (take j l ++ t :: drop j l) pn]>
                   (<[t := Node Text "" (Some p) [] []]> (heap d)))
                true (Some t))) /\
        (expect = false \/ node_kind xn = Text ->
         sibling node count is_text d = (Ok (Some x), with_cursor (Some x) d))) /\
     (j = length l ->
        (expect = true ->
         (forall y yn, l !! (j - 1)%nat = Some y -> heap d !! y = Some yn ->
                       is_child_node (node_kind yn) = true) ->
         sibling node count is_text d =
           (Ok (Some t),
            Doc (<[p := with_children (l ++ [t]) pn]>
                   (<[t := Node Text "" (Some p) [] []]> (heap d)))
                true (Some t))) /\
        (expect = false ->
         sibling node count is_text d = (Ok None, with_cursor None d))) /\
     ((length l < j)%nat ->
      sibling node count is_text d = (Throw TypeError, d))).
Proof.
  intros Hh n expect cursor t.
  assert (Ht : heap d !! t = None) by apply fresh_unmapped.
  split; [|split; [|split; [|split]]].
  - intros node'. rewrite !sibling_hydrating_run by assumption. reflexivity.
  - intros e He. rewrite sibling_hydrating_run by assumption.
    fold n cursor. rewrite He. reflexivity.
  - intros landing Hl Hm. rewrite sibling_hydrating_run by assumption.
    fold n cursor expect. rewrite Hl, Hm. reflexivity.
  - intros landing Hl Hm. rewrite sibling_hydrating_run by assumption.
    fold n cursor expect. rewrite Hl, Hm. reflexivity.
  - intros c p pn i Hcur Hp Hacc Hnd Hall Hi l j.
    assert (Hpt : p ≠ t) by (eapply mapped_not_fresh; eassumption).
    assert (Hhop : hop d n cursor =
              if decide (j <= length l)%nat then Ok (l !! j)
              else Throw TypeError).
    { rewrite Hcur. apply (hop_by_index d p pn i n c); assumption. }
    rewrite sibling_hydrating_run by assumption.
    fold n cursor expect. rewrite Hhop.
    split; [|split].
    + intros x xn Hx Hxn.
      assert (Hle : (j <= length l)%nat).
      { apply Nat.lt_le_incl. eapply lookup_lt_Some. eassumption. }
      rewrite decide_True by assumption. rewrite Hx.
      assert (Hxt : x ≠ t) by (eapply mapped_not_fresh; eassumption).
      assert (Hxp : parentNode xn = Some p).
      { rewrite Forall_forall in Hall.
        specialize (Hall x (list_elem_of_lookup_2 _ _ _ Hx)).
        rewrite Hxn in Hall. simpl in Hall. congruence. }
      split.
      * intros -> Hk.
        assert (Hnt : is_text_node d (Some x) = false).
        { simpl. rewrite Hxn. apply bool_decide_eq_false.
          destruct Hk as [-> | ->]; discriminate. }
        rewrite Hnt. cbn [andb negb]. cbv zeta. fold t. unfold place_text.
        rewrite (before_run _ x p t xn pn (Node Text "" None [] [])); simpl;
          rewrite ?lookup_insert_eq, ?lookup_insert_ne by congruence;
          try done.
        -- fold l. rewrite (splice_before_at l j x t) by assumption.
           unfold with_cursor, with_heap, with_parent. simpl.
           rewrite insert_insert_eq, Hh. reflexivity.
        -- destruct Hk as [-> | ->]; reflexivity.
      * intros Hcase.
        assert (Hoff : expect && negb (is_text_node d (Some x)) = false).
        { destruct Hcase as [-> | Hk]; [reflexivity|].
          simpl. rewrite Hxn, bool_decide_eq_true_2 by assumption.
          apply andb_false_r. }
        rewrite Hoff. reflexivity.
    + intros Hj. rewrite decide_True by lia.
      rewrite (lookup_ge_None_2 l j) by lia.
      assert (Hilt : (i < length l)%nat) by (eapply lookup_lt_Some; eassumption).
      destruct n as [|m] eqn:Hn; [unfold j in Hj; lia|].
      assert (Hjm : (j - 1)%nat = (i + m)%nat) by (unfold j; lia).
      split.
      * intros -> Hkind. cbn [andb negb is_text_node]. cbv zeta. fold t.
        rewrite Hcur.
        rewrite (last_reached_by_index d p pn i m c)
          by (auto; unfold j, l in Hj; lia).
        fold l. rewrite <- Hjm.
        destruct (l !! (j - 1)%nat) as [y|] eqn:Hy.
        2:{ apply lookup_ge_None in Hy. lia. }
        assert (Hyin : y ∈ l) by (eapply list_elem_of_lookup_2; eassumption).
        rewrite Forall_forall in Hall. specialize (Hall y Hyin).
        destruct (heap d !! y) as [yn|] eqn:Hyn; [|discriminate].
        simpl in Hall. injection Hall as Hyp.
        assert (Hyt : y ≠ t) by (eapply mapped_not_fresh; eassumption).
        unfold place_text.
        rewrite (after_run _ y p t yn pn (Node Text "" None [] [])); simpl;
          rewrite ?lookup_insert_eq, ?lookup_insert_ne by congruence;
          try done.
        -- fold l. rewrite (splice_after_last l (j - 1) y t) by (auto; lia).

           unfold with_cursor, with_heap, with_parent. simpl.
           rewrite insert_insert_eq, Hh. reflexivity.
        -- eapply Hkind; eauto.
      * intros ->. reflexivity.
    + intros Hgt. rewrite decide_False by lia. reflexivity.
Qed.

(** ** The deferred-append policy *)

Lemma to_int32_small (x : Z) : -2 ^ 31 <= x < 2 ^ 31 -> to_int32 x = x.
Proof. intros H. unfold to_int32. rewrite Z.mod_small; lia. Qed.

Lemma to_int32_low_bits (x k : Z) :
  0 <= k < 32 -> Z.testbit (to_int32 x) k = Z.testbit x k.
Proof.
  intros Hk. rewrite <- (Z.mod_pow2_bits_low (to_int32 x) 32 k) by lia.
  rewrite <- (Z.mod_pow2_bits_low x 32 k) by lia.
  f_equal. unfold to_int32. rewrite Zminus_mod_idemp_l. f_equal. lia.
Qed.

Lemma land_pow2 (y k : Z) :
  0 <= k -> Z.land y (2 ^ k) = if Z.testbit y k then 2 ^ k else 0.
Proof.
  intros Hk. apply Z.bits_inj'. intros m Hm.
  rewrite Z.land_spec, Z.pow2_bits_eqb by assumption.
  destruct (Z.eqb_spec k m) as [->|Hne].
  - destruct (Z.testbit y m); simpl.
    + rewrite Z.pow2_bits_true by assumption. reflexivity.
    + rewrite Z.bits_0. reflexivity.
  - rewrite andb_false_r. destruct (Z.testbit y k).
    + rewrite Z.pow2_bits_false by assumption. reflexivity.
    + rewrite Z.bits_0. reflexivity.
Qed.

(** Masking with [EFFECT_RAN] tests the one bit. *)
Lemma ran_mask (ran_bit flags : Z) :
  0 <= ran_bit < 31 ->
  negb (js_and flags (EFFECT_RAN ran_bit) =? 0) = Z.testbit flags ran_bit.
Proof.
  intros Hk. unfold js_and, EFFECT_RAN.
  assert (Hp : 0 < 2 ^ ran_bit < 2 ^ 31).
  { split; [apply Z.pow_pos_nonneg; lia|apply Z.pow_lt_mono_r; lia]. }
  rewrite (to_int32_small (2 ^ ran_bit)) by lia.
  rewrite land_pow2, to_int32_low_bits by lia.
  destruct (Z.testbit flags ran_bit).
  - destruct (Z.eqb_spec (2 ^ ran_bit) 0); [lia|reflexivity].
  - reflexivity.
Qed.

(** C6.  [should_defer_append] returns [false] whenever async mode is
    disabled, whatever the active effect and its flags are, and it returns
    [true] exactly when async mode is enabled and the [EFFECT_RAN] bit of
    the active effect's flags is set. *)
Theorem should_defer_append_true_iff (ran_bit : Z) (rt : runtime) :
  0 <= ran_bit < 31 ->
  (async_mode_flag rt = false -> should_defer_append ran_bit rt = Ok false) /\
  (should_defer_append ran_bit rt = Ok true <->
   async_mode_flag rt = true /\
   exists e, active_effect rt = Some e /\ Z.testbit (f e) ran_bit = true).
Proof.
  intros Hk. destruct rt as [async eff]. simpl. unfold should_defer_append.
  simpl. split.
  - intros ->. reflexivity.
  - destruct async; simpl.
    + destruct eff as [e|]; simpl.
      * rewrite ran_mask by assumption. split.
        -- intros H. injection H as H. split; [reflexivity|]. eauto.
        -- intros [_ (e' & He & Hb)]. injection He as <-. rewrite Hb.
           reflexivity.
      * split; [discriminate|]. intros [_ (e' & He & _)]. discriminate.
    + split; [discriminate|]. intros [H _]. discriminate.
Qed.

(** C10.  With async mode disabled [should_defer_append] returns [false]
    for every value of the active effect, [null] included: the active
    effect is not read.  With async mode enabled it reads the flags of the
    active effect unconditionally: it throws when there is no active
    effect and returns the mask test, never throwing, when there is
    one. *)
Theorem should_defer_append_reads_effect_only_in_async_mode (ran_bit : Z) :
  (forall eff, should_defer_append ran_bit (Runtime false eff) = Ok false) /\
  should_defer_append ran_bit (Runtime true None) = Throw TypeError /\
  (forall e, should_defer_append ran_bit (Runtime true (Some e))
             = Ok (negb (js_and (f e) (EFFECT_RAN ran_bit) =? 0))).
Proof. repeat split. Qed.

(** ** [set_attribute] *)





Lemma substring_all (s : string) : String.substring 0 (String.length s) s = s.
Proof. induction s as [|c s IH]; simpl; [reflexivity|]. rewrite IH. reflexivity. Qed.

Lemma split_xlink (local : string) :
  split_qualified ("xlink:" +:+ local) = (Some "xlink"%string, local).
Proof.
  change ("xlink:" +:+ local)
    with (String "x"%char (String "l"%char (String "i"%char
            (String "n"%char (String "k"%char (String ":"%char local)))))).
  unfold split_qualified. simpl.
  replace (String.prefix "" local) with true by (destruct local; reflexivity).
  simpl. rewrite Nat.sub_0_r, substring_all.
  reflexivity.
Qed.

Lemma prefix_xlink (key : string) :
  String.prefix "xlink:" key = true <-> exists local, key = "xlink:" +:+ local.
Proof.
  split.
  - intros H.
    do 6 (destruct key as [|[[] [] [] [] [] [] [] []] key]; try discriminate H).
    exists key. reflexivity.
  - intros [local ->]. destruct local; reflexivity.
Qed.

Lemma validate_xlink (m : markup) (local : string) :
  validate_and_extract m (Some "http://www.w3.org/1999/xlink")
      ("xlink:" +:+ local)
    = if valid_qualified m ("xlink:" +:+ local)
      then Ok (Some "http://www.w3.org/1999/xlink"%string,
               Some "xlink"%string, local)
      else Throw InvalidCharacterError.
Proof.
  unfold validate_and_extract. rewrite split_xlink. cbn [fst snd].
  destruct (valid_qualified m ("xlink:" +:+ local)); [|reflexivity].
  cbn [negb]. rewrite (bool_decide_eq_false_2 ("xlink:" +:+ local = "xmlns"%string)).
  - reflexivity.
  - change ("xlink:" +:+ local)
      with (String "x"%char (String "l"%char (String "i"%char
              (String "n"%char (String "k"%char (String ":"%char local)))))).
    discriminate.
Qed.

Lemma set_attribute_xlink_run (m : markup) (d : doc) (el : ref) (n : node)
    (local : string) (value : option string) :
  heap d !! el = Some n -> node_kind n = Element ->
  set_attribute m (Some el) ("xlink:" +:+ local) value d =
    if valid_qualified m ("xlink:" +:+ local) then
      (Ok tt,
       with_heap
         (<[el := with_attributes
                    (put_attr
                       (same_ns_local (Some "http://www.w3.org/1999/xlink")
                          local)
                       (Attr (Some "http://www.w3.org/1999/xlink")
                          (Some "xlink") local (default "" value))
                       (attributes n)) n]> (heap d)) d)
    else (Throw InvalidCharacterError, d).
Proof.
  intros Hel Hk. unfold set_attribute.
  replace (String.prefix "xlink:" ("xlink:" +:+ local)) with true
    by (symmetry; apply prefix_xlink; eauto).
  unfold setAttributeNS, deref_element. run. rewrite Hel. simpl.
  rewrite Hk. simpl. rewrite validate_xlink.
  destruct (valid_qualified m ("xlink:" +:+ local)); reflexivity.
Qed.

Lemma set_attribute_plain_run (m : markup) (d : doc) (el : ref) (n : node)
    (key : string) (value : option string) :
  heap d !! el = Some n -> node_kind n = Element ->
  String.prefix "xlink:" key = false ->
  set_attribute m (Some el) key value d =
    if valid_name m key then
      (Ok tt,
       with_heap
         (<[el := with_attributes
                    (put_attr (same_qualified (stored_name m el key))
                       (Attr None None (stored_name m el key)
                          (default "" value))
                       (attributes n)) n]> (heap d)) d)
    else (Throw InvalidCharacterError, d).
Proof.
  intros Hel Hk Hpre. unfold set_attribute. rewrite Hpre.
  unfold setAttribute, deref_element. run. rewrite Hel. simpl.
  rewrite Hk. simpl.
  destruct (valid_name m key); reflexivity.
Qed.


(** ** [init_operations] on prototypes that cannot be extended *)

(** The guarded reservations are skipped: in a production build
    [init_operations] returns normally on non-extensible prototypes and
    leaves them untouched. *)
Lemma init_operations_skips_guarded_slots (e : Env.env) :
  Env.window_bound e = false -> Env.DEV e = false ->
  Env.extensible (Env.element_prototype e) = false ->
  Env.extensible (Env.text_prototype e) = false ->
  Env.init_operations e = (Ok tt, Env.bind_globals e).
Proof.
  intros Hw Hd He Ht.
  destruct e as [dev ua [ee eo] [te to] w dc ff gb aw]. simpl in *. subst.
  reflexivity.
Qed.

(** The reservation of [__svelte_meta] is not guarded: in a diagnostics
    build it is attempted on a non-extensible [Element.prototype] too, and
    the assignment throws. *)
Lemma init_operations_dev_slot_throws (e : Env.env) :
  Env.window_bound e = false -> Env.DEV e = true ->
  Env.extensible (Env.element_prototype e) = false ->
  Env.own (Env.element_prototype e) !! "__svelte_meta"%string = None ->
  fst (Env.init_operations e) = Throw TypeError.
Proof.
  intros Hw Hd He Hm.
  destruct e as [dev ua [ee eo] [te to] w dc ff gb aw]. simpl in *. subst.
  unfold Env.init_operations, bind, gets, modify, ret. simpl.
  destruct te; simpl.
  - unfold Env.assign_text, Env.assign. simpl.
    destruct (to !! "__t"%string) as [[pv []]|]; simpl; try reflexivity;
      unfold Env.assign_element, Env.assign; simpl; rewrite Hm; reflexivity.
  - unfold Env.assign_element, Env.assign. simpl. rewrite Hm. reflexivity.
Qed.

(** C8 (violated by the code).  The claim is that every slot reservation
    of [init_operations], the diagnostics-build ones included, is guarded
    by an extensibility check and silently skipped on a host that forbids
    extending its prototypes.  In a diagnostics build with non-extensible
    prototypes the call does not return silently: the unguarded assignment
    of [__svelte_meta] throws a [TypeError], after the guarded
    reservations were skipped and left both prototypes untouched. *)
Theorem init_operations_dev_slot_unguarded :
  Env.init_operations Sample.sealed_dev
    = (Throw TypeError, Env.bind_globals Sample.sealed_dev) /\
  Env.init_operations Sample.sealed_prod
    = (Ok tt, Env.bind_globals Sample.sealed_prod).
Proof. split; reflexivity. Qed.

(** ** Instances of the conditional statements *)

Lemma child_inserts_text_before_comment_witness :
  exists t d',
    child None true (Doc Sample.comment_only true (Some 1%nat))
      = (Ok (Some t), d') /\
    heap d' !! 1%nat = Some (Node Element "" None [t; 2%nat] []) /\
    hydrate_node d' = Some t.
Proof.
  destruct (child_inserts_text_before_comment
              (Doc Sample.comment_only true (Some 1%nat)) None 1%nat 2%nat
              (Node Element "" None [2%nat] [])
              (Node Comment "" (Some 1%nat) [] []))
    as (t & d' & Hrun & _ & _ & Hp & _ & _ & _ & Hcur & _);
    try reflexivity.
  exists t, d'. repeat split; assumption.
Defined.

Lemma child_appends_text_to_empty_element_witness :
  exists t d',
    child None true (Doc Sample.childless true (Some 1%nat))
      = (Ok (Some t), d') /\
    heap d' !! 1%nat = Some (Node Element "" None [t] []) /\
    hydrate_node d' = Some t.
Proof.
  destruct (child_appends_text_to_empty_element
              (Doc Sample.childless true (Some 1%nat)) None true 1%nat
              (Node Element "" None [] []))
    as (t & d' & Hrun & _ & _ & Hp & _ & _ & Hcur & _);
    try reflexivity.
  exists t, d'. repeat split; assumption.
Defined.

Lemma walkers_read_only_when_not_hydrating_witness :
  let d := Doc Sample.fragment false (Some 3%nat) in
  snd (first_child (Some 1%nat) false d) = d /\
  snd (child (Some 1%nat) false d) = d /\
  snd (sibling (Some 2%nat) (Some 1%nat) None d) = d.
Proof.
  intros d.
  destruct (walkers_read_only_when_not_hydrating d (Some 1%nat) false
              (Some 1%nat) None eq_refl) as ((H1 & _) & (H2 & _) & _).
  destruct (walkers_read_only_when_not_hydrating d (Some 2%nat) false
              (Some 1%nat) None eq_refl) as (_ & _ & (H3 & _)).
  repeat split; assumption.
Defined.

Lemma sibling_hydrating_walks_from_cursor_witness :
  sibling None (Some 1%nat) (Some true)
    (Doc Sample.fragment true (Some 2%nat))
  = (Ok (Some 4%nat),
     Doc (<[1%nat := Node DocumentFragment "" None [2%nat; 4%nat; 3%nat] []]>
            (<[4%nat := Node Text "" (Some 1%nat) [] []]> Sample.fragment))
         true (Some 4%nat)).
Proof.
  destruct (sibling_hydrating_walks_from_cursor
              (Doc Sample.fragment true (Some 2%nat)) None (Some 1%nat)
              (Some true) eq_refl) as (_ & _ & _ & _ & H).
  destruct (H 2%nat 1%nat (Node DocumentFragment "" None [2%nat; 3%nat] [])
              0%nat eq_refl eq_refl eq_refl) as (Hin & _).
  - apply (bool_decide_unpack _). vm_compute. exact I.
  - repeat constructor.
  - reflexivity.
  - destruct (Hin 3%nat (Node Element "" (Some 1%nat) [] []) eq_refl eq_refl)
      as (Hput & _).
    apply Hput; [reflexivity | left; reflexivity].
Defined.

Lemma first_child_skips_placeholder_witness :
  first_child (Some 1%nat) false (Doc Sample.fragment false None)
    = (Ok (Some 3%nat), Doc Sample.fragment false None) /\
  first_child (Some 1%nat) false (Doc Sample.fragment_plain false None)
    = (Ok (Some 2%nat), Doc Sample.fragment_plain false None).
Proof.
  split.
  - destruct (first_child_skips_placeholder
                (Doc Sample.fragment false None) 1%nat
                (Node DocumentFragment "" None [2%nat; 3%nat] []) false
                eq_refl eq_refl) as [H _].
    apply (H 2%nat (Node Comment "" (Some 1%nat) [] []) [3%nat]);
      try reflexivity.
    apply (bool_decide_unpack _). vm_compute. exact I.
  - destruct (first_child_skips_placeholder
                (Doc Sample.fragment_plain false None) 1%nat
                (Node DocumentFragment "" None [2%nat; 3%nat] []) false
                eq_refl eq_refl) as [_ H].
    apply (H (Some 2%nat)); [reflexivity|].
    intros c cn Hc Hcn [Hk _]. injection Hc as <-.
    vm_compute in Hcn. injection Hcn as <-. discriminate Hk.
Defined.

Lemma should_defer_append_true_iff_witness :
  should_defer_append 15 (Runtime false (Some (Effect 32768))) = Ok false /\
  should_defer_append 15 (Runtime true (Some (Effect 32768))) = Ok true.
Proof.
  split.
  - apply (should_defer_append_true_iff 15
             (Runtime false (Some (Effect 32768)))); [lia|reflexivity].
  - apply (should_defer_append_true_iff 15
             (Runtime true (Some (Effect 32768)))); [lia|].
    split; [reflexivity|]. exists (Effect 32768). split; reflexivity.
Defined.


Lemma first_child_null_cursor_leaves_text_detached_witness :
  exists t d',
    first_child None true (Doc Sample.comment_only true None)
      = (Ok (Some t), d') /\
    heap d' !! t = Some (Node Text "" None [] []) /\
    forall i n, heap d' !! i = Some n -> t ∉ childNodes n.
Proof.
  destruct (first_child_null_cursor_leaves_text_detached
              (Doc Sample.comment_only true None) None eq_refl eq_refl)
    as (t & d' & Hrun & _ & Ht & _ & _ & _ & _ & Hdet).
  exists t, d'. repeat split; try assumption.
  apply Hdet. apply (bool_decide_unpack _). vm_compute. exact I.
Defined.

(** * The environment binding, continued *)

Lemma assign_element_globals (k : string) (v : Env.value) (e : Env.env) :
  globals (snd (Env.assign_element k v e)) = globals e.
Proof.
  unfold Env.assign_element.
  destruct (Env.assign k v (Env.element_prototype e)); reflexivity.
Qed.

Lemma assign_text_globals (k : string) (v : Env.value) (e : Env.env) :
  globals (snd (Env.assign_text k v e)) = globals e.
Proof.
  unfold Env.assign_text.
  destruct (Env.assign k v (Env.text_prototype e)); reflexivity.
Qed.

Lemma bind_keeps_globals {A B} (m : M Env.env A) (k : A -> M Env.env B) :
  (forall e, globals (snd (m e)) = globals e) ->
  (forall a e, globals (snd (k a e)) = globals e) ->
  forall e, globals (snd (bind m k e)) = globals e.
Proof.
  intros Hm Hk e. unfold bind. specialize (Hm e).
  destruct (m e) as [[a|x] e']; simpl in Hm.
  - rewrite Hk. assumption.
  - assumption.
Qed.

(** What [init_operations] does after it has bound the globals. *)
Lemma init_operations_unbound (e : Env.env) :
  Env.window_bound e = false ->
  Env.init_operations e =
    (let* ep := gets Env.element_prototype in
     (if Env.is_extensible ep then
        Env.assign_element "__click" Env.Undefined ;;
        Env.assign_element "__className" Env.Undefined ;;
        Env.assign_element "__attributes" Env.Null ;;
        Env.assign_element "__style" Env.Undefined ;;
        Env.assign_element "__e" Env.Undefined
      else ret tt) ;;
     let* tp := gets Env.text_prototype in
     (if Env.is_extensible tp then Env.assign_text "__t" Env.Undefined
      else ret tt) ;;
     let* dev := gets Env.DEV in
     if dev : bool then
       Env.assign_element "__svelte_meta" Env.Null ;;
       Env.init_array_prototype_warnings
     else ret tt) (Env.bind_globals e).
Proof.
  intros Hw. unfold Env.init_operations.
  unfold bind at 1. unfold gets at 1. rewrite Hw. reflexivity.
Qed.

Lemma init_operations_tail_globals (e : Env.env) :
  globals (snd (
    (let* ep := gets Env.element_prototype in
     (if Env.is_extensible ep then
        Env.assign_element "__click" Env.Undefined ;;
        Env.assign_element "__className" Env.Undefined ;;
        Env.assign_element "__attributes" Env.Null ;;
        Env.assign_element "__style" Env.Undefined ;;
        Env.assign_element "__e" Env.Undefined
      else ret tt) ;;
     let* tp := gets Env.text_prototype in
     (if Env.is_extensible tp then Env.assign_text "__t" Env.Undefined
      else ret tt) ;;
     let* dev := gets Env.DEV in
     if dev : bool then
       Env.assign_element "__svelte_meta" Env.Null ;;
       Env.init_array_prototype_warnings
     else ret tt) e)) = globals e.
Proof.
  revert e.
  repeat first
    [ apply bind_keeps_globals; [|intros ?]
    | intros e; apply assign_element_globals
    | intros e; apply assign_text_globals
    | intros e; reflexivity
    | match goal with |- context [if ?b then _ else _] => destruct b end ].
Qed.



(** X2.  A first call of [init_operations] records whether the browser is
    Firefox, also when it throws later on: afterwards [is_firefox] is
    [true] exactly when [Firefox] occurs somewhere in
    [navigator.userAgent], and the other globals are bound. *)
Theorem init_operations_detects_firefox (e : Env.env) :
  Env.window_bound e = false ->
  let e' := snd (Env.init_operations e) in
  (Env.is_firefox e' = Some true \/ Env.is_firefox e' = Some false) /\
  (Env.is_firefox e' = Some true <->
   exists m, String.substring m 7 (Env.userAgent e) = "Firefox"%string) /\
  Env.window_bound e' = true /\ Env.document_bound e' = true /\
  Env.getters_bound e' = true.
Proof.
  intros Hw e'. subst e'. rewrite init_operations_unbound by assumption.
  pose proof (init_operations_tail_globals (Env.bind_globals e)) as H.
  unfold globals in H. injection H as _ _ Hwb Hdb Hff Hgb.
  rewrite Hwb, Hdb, Hff, Hgb. simpl.
  split; [|split; [|auto]].
  - destruct (bool_decide _); auto.
  - split.
    + intros H. injection H as H. apply bool_decide_eq_true in H.
      destruct H as [m Hm]. exists m.
      apply (String.index_correct1 0 m "Firefox" _ Hm).
    + intros [m Hm]. f_equal. apply bool_decide_eq_true.
      destruct (String.index 0 "Firefox" (Env.userAgent e)) as [k|] eqn:Hi;
        [eauto|].
      exfalso.
      apply (String.index_correct3 0 m "Firefox" _ Hi); [discriminate|lia|].
      exact Hm.
Qed.

Lemma assign_extensible (k : string) (v : Env.value) (o : Env.object) :
  Env.extensible o = true ->
  (forall p, Env.own o !! k = Some p -> Env.writable p = true) ->
  Env.assign k v o
    = Ok (Env.Object true (<[k := Env.Property v true]> (Env.own o))).
Proof.
  intros He Hw. unfold Env.assign.
  destruct (Env.own o !! k) as [p|] eqn:Hk.
  - rewrite (Hw p eq_refl), He. reflexivity.
  - rewrite He. reflexivity.
Qed.

(** X3.  On prototypes that are extensible and have no read-only
    property, a first call of [init_operations] returns normally in either
    build, the prototypes stay extensible, every reserved slot is an own
    property with the initial value the source gives it
    ([__attributes] is [null], the others [undefined]; in a diagnostics
    build also [__svelte_meta], [null]), and every other own property is
    as it was. *)
Theorem init_operations_reserves_slots (e : Env.env) :
  Env.window_bound e = false ->
  Env.extensible (Env.element_prototype e) = true ->
  Env.extensible (Env.text_prototype e) = true ->
  (forall k p, Env.own (Env.element_prototype e) !! k = Some p ->
               Env.writable p = true) ->
  (forall k p, Env.own (Env.text_prototype e) !! k = Some p ->
               Env.writable p = true) ->
  exists e',
    Env.init_operations e = (Ok tt, e') /\
    Env.extensible (Env.element_prototype e') = true /\
    Env.extensible (Env.text_prototype e') = true /\
    let slot o k := Env.prop_value <$> Env.own o !! k in
    let ep := Env.element_prototype e' in
    let tp := Env.text_prototype e' in
    slot ep "__click"%string = Some Env.Undefined /\
    slot ep "__className"%string = Some Env.Undefined /\
    slot ep "__attributes"%string = Some Env.Null /\
    slot ep "__style"%string = Some Env.Undefined /\
    slot ep "__e"%string = Some Env.Undefined /\
    slot tp "__t"%string = Some Env.Undefined /\
    slot ep "__svelte_meta"%string
      = (if Env.DEV e then Some Env.Null
         else slot (Env.element_prototype e) "__svelte_meta"%string) /\
    Env.array_warnings e' = (Env.DEV e || Env.array_warnings e) /\
    (forall k, k ∉ ["__click"; "__className"; "__attributes"; "__style";
                    "__e"; "__svelte_meta"]%string ->
               Env.own ep !! k = Env.own (Env.element_prototype e) !! k) /\
    (forall k, k ≠ "__t"%string ->
               Env.own tp !! k = Env.own (Env.text_prototype e) !! k).
Proof.
  intros Hw He Ht Hwe Hwt.
  destruct e as [dev ua [ee eo] [te to] w dc ff gb aw]. simpl in *. subst.
  assert (Hstep : forall k v o,
            (forall j p, o !! j = Some p -> Env.writable p = true) ->
            Env.assign k v (Env.Object true o)
              = Ok (Env.Object true (<[k := Env.Property v true]> o)) /\
            (forall j p, <[k := Env.Property v true]> o !! j = Some p ->
                         Env.writable p = true)).
  { intros k v o Ho. split.
    - apply assign_extensible; [reflexivity|]. intros p. apply Ho.
    - intros j p. rewrite lookup_insert. destruct (decide (k = j)).
      + intros [= <-]. reflexivity.
      + apply Ho. }
  unfold Env.init_operations, bind, gets, modify, ret. simpl.
  unfold Env.assign_element, Env.assign_text. simpl.
  destruct (Hstep "__click"%string Env.Undefined eo Hwe) as [-> H1]. simpl.
  destruct (Hstep "__className"%string Env.Undefined _ H1) as [-> H2]. simpl.
  destruct (Hstep "__attributes"%string Env.Null _ H2) as [-> H3]. simpl.
  destruct (Hstep "__style"%string Env.Undefined _ H3) as [-> H4]. simpl.
  destruct (Hstep "__e"%string Env.Undefined _ H4) as [-> H5]. simpl.
  destruct (Hstep "__t"%string Env.Undefined to Hwt) as [-> _]. simpl.
  destruct dev; simpl.
  - destruct (Hstep "__svelte_meta"%string Env.Null _ H5) as [-> _]. simpl.
    eexists. split; [reflexivity|]. simpl.
    repeat split; try (by simplify_map_eq).
    + intros k Hk. rewrite !lookup_insert_ne; [reflexivity|..];
        intros <-; apply Hk; rewrite !elem_of_cons; tauto.
    + intros k Hk. rewrite lookup_insert_ne by congruence. reflexivity.
  - eexists. split; [reflexivity|]. simpl.
    repeat split; try (by simplify_map_eq).
    + intros k Hk. rewrite !lookup_insert_ne; [reflexivity|..];
        intros <-; apply Hk; rewrite !elem_of_cons; tauto.
    + intros k Hk. rewrite lookup_insert_ne by congruence. reflexivity.
Qed.

(** * The walkers, continued *)

(** ** Where [sibling] lands *)

Lemma sibling_plain_run (d : doc) (node : option ref) (count : option nat)
    (is_text : option bool) :
  hydrating d = false ->
  sibling node count is_text d = (hop d (default 1%nat count) node, d).
Proof.
  intros Hh. rewrite sibling_not_hydrating by assumption.
  unfold bind. rewrite sibling_loop_hops.
  destruct (hop d (default 1%nat count) node); reflexivity.
Qed.

Lemma sibling_advance_run (d : doc) (node : option ref) (count : option nat) :
  hydrating d = true ->
  sibling node count (Some false) d =
    match hop d (default 1%nat count) (hydrate_node d) with
    | Ok landing => (Ok landing, with_cursor landing d)
    | Throw e => (Throw e, d)
    end.
Proof. intros Hh. rewrite sibling_hydrating_run by assumption. reflexivity. Qed.

(** X4.  Among the children of a parent whose child list is duplicate
    free and whose children all point back to it, [sibling] moves by
    index: from the child at index [i], [count] hops land on the child at
    index [i + count]; on [null] when that is one past the last child; and
    the call throws a [TypeError], changing nothing, when it is further
    out.  Outside hydration the start is [node]; during hydration, with
    [is_text = false], it is the cursor, which moves to the landing
    position. *)
Theorem sibling_moves_by_index
    (d : doc) (node : option ref) (p : ref) (pn : Dom.node) (i k : nat)
    (c : ref) (is_text : option bool) :
  heap d !! p = Some pn -> NoDup (childNodes pn) ->
  Forall (λ x, parentNode <$> heap d !! x = Some (Some p)) (childNodes pn) ->
  childNodes pn !! i = Some c ->
  (hydrating d = false ->
   sibling (Some c) (Some k) is_text d =
     (if decide (i + k <= length (childNodes pn))%nat
      then Ok (childNodes pn !! (i + k)%nat) else Throw TypeError, d)) /\
  (hydrating d = true -> hydrate_node d = Some c ->
   sibling node (Some k) (Some false) d =
     if decide (i + k <= length (childNodes pn))%nat
     then (Ok (childNodes pn !! (i + k)%nat),
           with_cursor (childNodes pn !! (i + k)%nat) d)
     else (Throw TypeError, d)).
Proof.
  intros Hp Hnd Hall Hi. split.
  - intros Hh. rewrite sibling_plain_run by assumption. simpl.
    rewrite (hop_by_index d p pn i k c) by assumption. reflexivity.
  - intros Hh Hc. rewrite sibling_advance_run by assumption. simpl.
    rewrite Hc, (hop_by_index d p pn i k c) by assumption.
    destruct (decide _); reflexivity.
Qed.

(** X5.  During hydration two calls [sibling(node)] in a row (count and
    expectation omitted) never visit a node twice: from the cursor at
    index [i] of such a parent, with two more children to its right, the
    first call returns the child at index [i + 1], the second the child at
    index [i + 2], the cursor follows, and the start and the two nodes
    returned are three different nodes. *)
Theorem sibling_twice_visits_distinct_nodes
    (d : doc) (n1 n2 : option ref) (p : ref) (pn : Dom.node) (i : nat)
    (c r1 r2 : ref) :
  hydrating d = true -> hydrate_node d = Some c ->
  heap d !! p = Some pn -> NoDup (childNodes pn) ->
  Forall (λ x, parentNode <$> heap d !! x = Some (Some p)) (childNodes pn) ->
  childNodes pn !! i = Some c ->
  childNodes pn !! S i = Some r1 ->
  childNodes pn !! S (S i) = Some r2 ->
  sibling n1 None None d = (Ok (Some r1), with_cursor (Some r1) d) /\
  sibling n2 None None (with_cursor (Some r1) d)
    = (Ok (Some r2), with_cursor (Some r2) d) /\
  c ≠ r1 /\ r1 ≠ r2 /\ c ≠ r2.
Proof.
  intros Hh Hc Hp Hnd Hall Hi H1 H2.
  assert (Hrun : forall dd n j x y,
            heap dd = heap d -> hydrating dd = true ->
            hydrate_node dd = Some x ->
            childNodes pn !! j = Some x -> childNodes pn !! S j = Some y ->
            sibling n None None dd = (Ok (Some y), with_cursor (Some y) dd)).
  { intros dd n j x y Hheap Hhy Hcur Hj HSj.
    change (sibling n None None) with (sibling n (Some 1%nat) (Some false)).
    rewrite sibling_advance_run by assumption. simpl. rewrite Hcur.
    rewrite (next_of_child dd p pn j x), HSj; rewrite ?Hheap; auto. }
  split; [|split].
  - apply (Hrun d n1 i c r1); auto.
  - rewrite (Hrun (with_cursor (Some r1) d) n2 (S i) r1 r2); auto.
  - rewrite NoDup_alt in Hnd. repeat split; intros ->.
    + specialize (Hnd _ _ _ Hi H1). lia.
    + specialize (Hnd _ _ _ H1 H2). lia.
    + specialize (Hnd _ _ _ Hi H2). lia.
Qed.

Lemma hop_add (d : doc) (a b : nat) (start : option ref) :
  hop d (a + b) start =
    match hop d a start with
    | Ok r => hop d b r
    | Throw e => Throw e
    end.
Proof.
  induction b as [|b IH].
  - rewrite Nat.add_0_r. simpl. destruct (hop d a start); reflexivity.
  - rewrite Nat.add_succ_r. simpl. rewrite IH.
    destruct (hop d a start); reflexivity.
Qed.

(** X6.  Advancing composes.  Outside hydration, [count] hops from the
    node that [a] hops returned are [a + count] hops from the start.
    During hydration, with [is_text = false], a call with [a] hops followed
    by a call with [b] hops returns what a single call with [a + b] hops
    returns and leaves the same document; only when the second call throws
    does the cursor rest at the position the first call reached. *)
Theorem sibling_composes
    (d d' : doc) (node n2 n3 r : option ref) (a b : nat)
    (t1 t2 t3 : option bool) :
  (hydrating d = false ->
   sibling node (Some a) t1 d = (Ok r, d') ->
   sibling r (Some b) t2 d' = sibling node (Some (a + b)%nat) t3 d) /\
  (hydrating d = true ->
   sibling node (Some a) (Some false) d = (Ok r, d') ->
   d' = with_cursor r d /\
   sibling n2 (Some b) (Some false) d' =
     match sibling n3 (Some (a + b)%nat) (Some false) d with
     | (Ok x, d'') => (Ok x, d'')
     | (Throw e, _) => (Throw e, d')
     end).
Proof.
  split.
  - intros Hh H1. rewrite sibling_plain_run in H1 by assumption.
    simpl in H1. injection H1 as H1 <-.
    rewrite !sibling_plain_run by assumption. simpl.
    rewrite hop_add, H1. reflexivity.
  - intros Hh H1. rewrite sibling_advance_run in H1 by assumption.
    simpl in H1.
    destruct (hop d a (hydrate_node d)) as [x|e] eqn:Ha; [|discriminate].
    injection H1 as -> <-. split; [reflexivity|].
    rewrite !sibling_advance_run by assumption. simpl.
    rewrite hop_add, Ha.
    assert (Hsame : forall k s, hop (with_cursor r d) k s = hop d k s).
    { intros k s. induction k as [|k IH]; simpl; [reflexivity|].
      rewrite IH. destruct (hop d k s) as [x|]; [|reflexivity].
      apply (read_only_get_next_sibling x d). }
    rewrite Hsame. destruct (hop d b r); reflexivity.
Qed.

(** ** The other branches of [child] and [first_child] *)

Lemma child_hydrating_run (d : doc) (node : option ref) (is_text : bool) :
  hydrating d = true ->
  child node is_text d =
    (let* c := get_first_child (hydrate_node d) in
     match c with
     | None =>
         let* t := create_text None in
         let* c' := appendChild (hydrate_node d) t in
         set_hydrate_node c' ;;
         ret c'
     | Some _ =>
         let* mismatch :=
           if is_text then
             let* ty := nodeType c in
             ret (negb (bool_decide (ty = Some TEXT_NODE)))
           else ret false in
         if mismatch : bool then
           let* t := create_text None in
           optional c (before c t) ;;
           set_hydrate_node t ;;
           ret t
         else
           set_hydrate_node c ;;
           ret c
     end) d.
Proof. intros Hh. unfold child, bind at 1, gets at 1. rewrite Hh. reflexivity. Qed.

Lemma first_child_hydrating_run (d : doc) (fragment : option ref)
    (is_text : bool) :
  hydrating d = true ->
  first_child fragment is_text d =
    (let* mismatch :=
       if is_text then
         let* ty := optional (hydrate_node d) (nodeType (hydrate_node d)) in
         ret (negb (bool_decide (ty = Some (Some TEXT_NODE))))
       else ret false in
     if mismatch : bool then
       let* t := create_text None in
       optional (hydrate_node d) (before (hydrate_node d) t) ;;
       set_hydrate_node t ;;
       ret t
     else ret (hydrate_node d)) d.
Proof.
  intros Hh. unfold first_child, bind at 1, gets at 1. rewrite Hh. reflexivity.
Qed.

Lemma child_mismatch_run (d : doc) (c : ref) :
  (let* ty := nodeType (Some c) in
   ret (negb (bool_decide (ty = Some TEXT_NODE)))) d
  = (Ok (negb (is_text_node d (Some c))), d).
Proof.
  run. unfold is_text_node.
  destruct (heap d !! c) as [n|]; simpl; [|reflexivity].
  do 2 f_equal. f_equal. apply bool_decide_ext. rewrite <- nodeType_text.
  split; congruence.
Qed.

(** X7.  During hydration, when the node under the cursor has a first
    child and either no text is expected or that child is a text node,
    [child] claims it: it returns that child, moves the cursor to it, and
    creates or moves nothing. *)
Theorem child_claims_matching_child
    (d : doc) (node : option ref) (is_text : bool) (p c : ref)
    (pn : Dom.node) :
  hydrating d = true -> hydrate_node d = Some p ->
  heap d !! p = Some pn -> head (childNodes pn) = Some c ->
  is_text = false \/ is_text_node d (Some c) = true ->
  child node is_text d = (Ok (Some c), with_cursor (Some c) d).
Proof.
  intros Hh Hcur Hp Hc Hm. rewrite child_hydrating_run by assumption.
  rewrite Hcur. unfold bind at 1. unfold get_first_child, firstChild.
  unfold bind at 1. unfold deref, bind at 1, gets at 1. rewrite Hp.
  unfold ret at 1 2. rewrite Hc.
  unfold bind at 1.
  destruct Hm as [->|Hm].
  - reflexivity.
  - destruct is_text; [|reflexivity].
    rewrite child_mismatch_run, Hm. reflexivity.
Qed.

(** X8.  [child] fails during hydration when the cursor cannot have the
    child it needs.  With the cursor at [null] the accessor throws a
    [TypeError] and nothing changes.  With the cursor on a childless node
    that is neither an element nor a fragment (a text node, a comment, the
    document) the append is refused with a [HierarchyRequestError]: the
    cursor stays where it was, no existing node changes, and the text node
    that was created for the append is left over, detached. *)
Theorem child_fails_without_room
    (d : doc) (node : option ref) (is_text : bool) :
  hydrating d = true ->
  (hydrate_node d = None -> child node is_text d = (Throw TypeError, d)) /\
  (forall p pn,
     hydrate_node d = Some p -> heap d !! p = Some pn ->
     childNodes pn = [] ->
     node_kind pn ≠ Element -> node_kind pn ≠ DocumentFragment ->
     child node is_text d =
       (Throw HierarchyRequestError,
        with_heap (<[fresh (dom (heap d)) := Node Text "" None [] []]> (heap d))
          d)).
Proof.
  intros Hh. split.
  - intros Hcur. rewrite child_hydrating_run by assumption. rewrite Hcur.
    reflexivity.
  - intros p pn Hcur Hp Hch Hk1 Hk2.
    rewrite child_hydrating_run by assumption. rewrite Hcur.
    unfold bind at 1. unfold get_first_child, firstChild.
    unfold bind at 1. unfold deref, bind at 1, gets at 1. rewrite Hp.
    unfold ret at 1 2. rewrite Hch.
    change (head (@nil ref)) with (@None ref). cbv iota.
    unfold bind at 1. rewrite create_text_run.
    unfold bind at 1. unfold appendChild, bind at 1.
    set (t := fresh (dom (heap d))).
    assert (Hpt : p ≠ t) by (eapply mapped_not_fresh; eassumption).
    rewrite (insert_checked_refused _ p t pn (Node Text "" None [] [])).
    + reflexivity.
    + simpl. rewrite lookup_insert_ne by congruence. assumption.
    + simpl. apply lookup_insert_eq.
    + simpl. destruct (node_kind pn); try reflexivity; congruence.
Qed.

(** X9.  During hydration, when no text is expected or the cursor is
    already on a text node, [first_child] returns the cursor and changes
    nothing, whatever its [fragment] argument is. *)
Theorem first_child_returns_matching_cursor
    (d : doc) (fragment : option ref) (is_text : bool) :
  hydrating d = true ->
  is_text = false \/ is_text_node d (hydrate_node d) = true ->
  first_child fragment is_text d = (Ok (hydrate_node d), d).
Proof.
  intros Hh Hm. rewrite first_child_hydrating_run by assumption.
  unfold bind at 1. destruct Hm as [->|Hm].
  - reflexivity.
  - destruct is_text; [|reflexivity].
    rewrite text_mismatch_run, Hm. reflexivity.
Qed.


(** ** What the walkers keep *)

Lemma splice_before_sublist (i t : ref) (l : list ref) :
  sublist l (splice_before i t l).
Proof.
  induction l as [|x l IH]; simpl; [constructor|].
  destruct (decide (x = i)).
  - apply sublist_cons. reflexivity.
  - apply sublist_skip. assumption.
Qed.

Lemma splice_after_sublist (i t : ref) (l : list ref) :
  sublist l (splice_after i t l).
Proof.
  induction l as [|x l IH]; simpl; [constructor|].
  destruct (decide (x = i)).
  - apply sublist_skip, sublist_cons. reflexivity.
  - apply sublist_skip. assumption.
Qed.

Lemma splice_before_found (i t : ref) (l : list ref) :
  i ∈ l -> exists l1 l2, l = l1 ++ l2 /\ splice_before i t l = l1 ++ t :: l2.
Proof.
  intros Hi. apply list_elem_of_split_l in Hi as (l1 & l2 & -> & Hn).
  exists l1, (i :: l2). split; [reflexivity|].
  apply splice_before_split. assumption.
Qed.

Lemma splice_after_found (i t : ref) (l : list ref) :
  i ∈ l -> exists l1 l2, l = l1 ++ l2 /\ splice_after i t l = l1 ++ t :: l2.
Proof.
  intros Hi. apply list_elem_of_split_l in Hi as (l1 & l2 & -> & Hn).
  exists (l1 ++ [i]), l2. rewrite <- !app_assoc. split; [reflexivity|].
  apply splice_after_split. assumption.
Qed.

Lemma text_placed_undisturbed (h h' : gmap ref node) :
  text_placed h h' -> undisturbed h h' /\ only_empty_text_added h h'.
Proof.
  unfold text_placed. set (t := fresh (dom h)).
  assert (Ht : h !! t = None) by apply fresh_unmapped.
  intros [->|[->|(p & pn & l' & Hp & -> & Hl')]].
  - split.
    + intros i n Hi. exists n. repeat split; auto.
    + intros i n' Hi Hn. congruence.
  - split.
    + intros i n Hi. exists n. rewrite lookup_insert_ne by congruence.
      repeat split; auto.
    + intros i n' Hi Hn. rewrite lookup_insert in Hi.
      destruct (decide (t = i)) as [<-|]; [|congruence].
      injection Hi as <-. repeat split.
  - assert (Hpt : p ≠ t) by congruence.
    assert (Hsub : sublist (childNodes pn) l').
    { destruct Hl' as [->|(i & n & _ & _ & [->| ->])].
      - apply sublist_inserts_r. reflexivity.
      - apply splice_before_sublist.
      - apply splice_after_sublist. }
    split.
    + intros i n Hi. destruct (decide (i = p)) as [->|Hip].
      * rewrite lookup_insert_eq. replace n with pn by congruence.
        eexists. split; [reflexivity|]. repeat split. assumption.
      * exists n. rewrite !lookup_insert_ne by congruence.
        repeat split; auto.
    + intros i n' Hi Hn. rewrite lookup_insert_ne in Hi by congruence.
      rewrite lookup_insert in Hi.
      destruct (decide (t = i)) as [<-|]; [|congruence].
      injection Hi as <-. repeat split.
Qed.

Lemma tree_shaped_child_mapped (h : gmap ref node) (i c : ref) (n : node) :
  tree_shaped h -> h !! i = Some n -> c ∈ childNodes n ->
  exists cn, h !! c = Some cn /\ parentNode cn = Some i.
Proof.
  intros Hts Hi Hc. destruct (Hts i n Hi) as (_ & Hall & _).
  rewrite Forall_forall in Hall. specialize (Hall c Hc).
  destruct (h !! c) as [cn|]; [|discriminate].
  exists cn. split; [reflexivity|]. simpl in Hall. congruence.
Qed.

Lemma tree_shaped_parent_lists (h : gmap ref node) (i p : ref) (n : node) :
  tree_shaped h -> h !! i = Some n -> parentNode n = Some p ->
  exists pn, h !! p = Some pn /\ i ∈ childNodes pn.
Proof.
  intros Hts Hi Hp. destruct (Hts i n Hi) as (_ & _ & [Hnone|Hin]).
  - congruence.
  - unfold siblings_of in Hin. rewrite Hp in Hin.
    destruct (h !! p) as [pn|]; [|inversion Hin]. eauto.
Qed.

Lemma tree_shaped_detached (h : gmap ref node) (v : string) :
  tree_shaped h ->
  tree_shaped (<[fresh (dom h) := Node Text v None [] []]> h).
Proof.
  intros Hts. set (t := fresh (dom h)).
  assert (Ht : h !! t = None) by apply fresh_unmapped.
  intros i n Hi. rewrite lookup_insert in Hi.
  destruct (decide (t = i)) as [<-|Hti].
  - injection Hi as <-. simpl. repeat split; [constructor|constructor|auto].
  - destruct (Hts i n Hi) as (Hnd & Hall & Hpar). split; [assumption|]. split.
    + rewrite Forall_forall in *. intros c Hc.
      destruct (tree_shaped_child_mapped h i c n Hts Hi Hc) as (cn & Hcn & _).
      rewrite lookup_insert_ne by congruence. auto.
    + destruct (parentNode n) as [p|] eqn:Hp; [|auto]. right.
      destruct (tree_shaped_parent_lists h i p n Hts Hi Hp) as (pn & Hpn & Hin).
      unfold siblings_of. rewrite Hp, lookup_insert_ne by congruence.
      rewrite Hpn. assumption.
Qed.

Lemma tree_shaped_placed (h : gmap ref node) (p : ref) (pn : node)
    (l1 l2 : list ref) :
  tree_shaped h -> h !! p = Some pn -> childNodes pn = l1 ++ l2 ->
  tree_shaped (<[p := with_children (l1 ++ fresh (dom h) :: l2) pn]>
                 (<[fresh (dom h) := Node Text "" (Some p) [] []]> h)).
Proof.
  intros Hts Hp Hl. set (t := fresh (dom h)).
  assert (Ht : h !! t = None) by apply fresh_unmapped.
  assert (Hpt : p ≠ t) by congruence.
  set (h' := <[p := with_children (l1 ++ t :: l2) pn]>
               (<[t := Node Text "" (Some p) [] []]> h)).
  assert (Hfresh : forall i n, h !! i = Some n -> t ∉ childNodes n).
  { intros i n Hi Hin.
    destruct (tree_shaped_child_mapped h i t n Hts Hi Hin) as (cn & Hcn & _).
    congruence. }
  assert (Hparent : forall x, x ≠ t ->
            parentNode <$> h' !! x = parentNode <$> h !! x).
  { intros x Hx. unfold h'. destruct (decide (x = p)) as [->|Hxp].
    - rewrite lookup_insert_eq, Hp. reflexivity.
    - rewrite !lookup_insert_ne by congruence. reflexivity. }
  assert (Hkids : forall q qn i, h !! q = Some qn -> i ∈ childNodes qn ->
            i ∈ from_option childNodes [] (h' !! q)).
  { intros q qn i Hq Hin. unfold h'. destruct (decide (q = p)) as [->|Hqp].
    - rewrite lookup_insert_eq. simpl. replace qn with pn in Hin by congruence.
      rewrite Hl in Hin. rewrite elem_of_app in *. rewrite elem_of_cons.
      tauto.
    - rewrite !lookup_insert_ne by congruence. rewrite Hq. assumption. }
  assert (Hold : forall i n n', h !! i = Some n ->
            parentNode n' = parentNode n ->
            parentNode n' = None \/ i ∈ siblings_of h' n').
  { intros i n n' Hi Hsame.
    destruct (parentNode n) as [q|] eqn:Hq; [|left; congruence]. right.
    destruct (tree_shaped_parent_lists h i q n Hts Hi Hq) as (qn & Hqn & Hin).
    unfold siblings_of. rewrite Hsame. eapply Hkids; eassumption. }
  intros i n Hi. unfold h' in Hi. rewrite lookup_insert in Hi.
  destruct (decide (p = i)) as [<-|Hpi].
  - injection Hi as <-. simpl.
    destruct (Hts p pn Hp) as (Hnd & Hall & _). split; [|split].
    + rewrite Hl in Hnd. apply (NoDup_Permutation_proper _ (t :: l1 ++ l2)).
      * symmetry. apply Permutation_middle.
      * apply NoDup_cons. split; [|assumption].
        rewrite <- Hl. eapply Hfresh. eassumption.
    + rewrite Forall_forall in *. intros c Hc.
      destruct (decide (c = t)) as [->|Hct].
      * unfold h'. rewrite lookup_insert_ne by congruence.
        rewrite lookup_insert_eq. reflexivity.
      * rewrite Hparent by assumption. apply Hall. rewrite Hl.
        rewrite elem_of_app in *. rewrite elem_of_cons in Hc. tauto.
    + apply (Hold p pn (with_children (l1 ++ t :: l2) pn));
        [assumption|reflexivity].
  - rewrite lookup_insert in Hi. destruct (decide (t = i)) as [<-|Hti].
    + injection Hi as <-. simpl. split; [constructor|]. split; [constructor|].
      right. unfold siblings_of. simpl. unfold h'.
      rewrite lookup_insert_eq. simpl. rewrite elem_of_app, elem_of_cons.
      tauto.
    + destruct (Hts i n Hi) as (Hnd & Hall & _). split; [assumption|]. split.
      * rewrite Forall_forall in *. intros c Hc. rewrite Hparent.
        -- apply Hall. assumption.
        -- intros ->. eapply Hfresh; eassumption.
      * apply (Hold i n); [assumption|reflexivity].
Qed.

Lemma text_placed_tree_shaped (h h' : gmap ref node) :
  text_placed h h' -> tree_shaped h -> tree_shaped h'.
Proof.
  unfold text_placed.
  intros [->|[->|(p & pn & l' & Hp & -> & Hl')]] Hts.
  - assumption.
  - apply tree_shaped_detached. assumption.
  - destruct Hl' as [->|(i & n & Hi & Hip & Hl')].
    + apply (tree_shaped_placed h p pn (childNodes pn) []); auto.
      rewrite app_nil_r. reflexivity.
    + destruct (tree_shaped_parent_lists h i p n Hts Hi Hip) as (pn' & Hpn & Hin).
      replace pn' with pn in Hin by congruence.
      destruct Hl' as [->| ->].
      * destruct (splice_before_found i (fresh (dom h)) _ Hin)
          as (l1 & l2 & Hl & ->).
        apply tree_shaped_placed; assumption.
      * destruct (splice_after_found i (fresh (dom h)) _ Hin)
          as (l1 & l2 & Hl & ->).
        apply tree_shaped_placed; assumption.
Qed.

Lemma insert_text_outcome (d : doc) (p : option ref)
    (place : ref -> list ref -> list ref) :
  let t := fresh (dom (heap d)) in
  let h1 := <[t := Node Text "" None [] []]> (heap d) in
  (exists e, insert_checked p (Some t) place (with_heap h1 d)
             = (Throw e, with_heap h1 d)) \/
  (exists pi pn, p = Some pi /\ heap d !! pi = Some pn /\
     insert_checked p (Some t) place (with_heap h1 d)
     = (Ok tt,
        with_heap (<[pi := with_children (place t (childNodes pn)) pn]>
                     (<[t := Node Text "" (Some pi) [] []]> (heap d))) d)).
Proof.
  intros t h1.
  assert (Ht : heap d !! t = None) by apply fresh_unmapped.
  assert (Ht1 : h1 !! t = Some (Node Text "" None [] []))
    by apply lookup_insert_eq.
  destruct p as [pi|]; [|left; exists TypeError; reflexivity].
  destruct (decide (pi = t)) as [->|Hne].
  - left. exists HierarchyRequestError.
    apply (insert_checked_refused _ t t (Node Text "" None [] [])
             (Node Text "" None [] [])); auto.
  - destruct (heap d !! pi) as [pn|] eqn:Hp.
    + assert (Hp1 : h1 !! pi = Some pn).
      { unfold h1. rewrite lookup_insert_ne by congruence. assumption. }
      destruct (accepts (node_kind pn) Text) eqn:Hacc.
      * right. exists pi, pn. split; [reflexivity|]. split; [assumption|].
        rewrite (insert_checked_run _ pi t pn (Node Text "" None [] []));
          auto.
        unfold with_heap, with_parent, h1. simpl.
        rewrite insert_insert_eq. reflexivity.
      * left. exists HierarchyRequestError.
        apply (insert_checked_refused _ pi t pn (Node Text "" None [] []));
          auto.
    + left. exists TypeError. unfold insert_checked. run.
      unfold h1. rewrite lookup_insert_ne by congruence. rewrite Hp.
      reflexivity.
Qed.

Lemma text_placed_detached (h : gmap ref node) :
  text_placed h (<[fresh (dom h) := Node Text "" None [] []]> h).
Proof. right. left. reflexivity. Qed.

Lemma is_Some_placed (h : gmap ref node) (p t : ref) (x y : node) :
  p ≠ t -> is_Some (<[p := x]> (<[t := y]> h) !! t).
Proof.
  intros Hne. rewrite lookup_insert_ne by congruence.
  rewrite lookup_insert_eq. eauto.
Qed.

(** What [node.before(t)] and [node.after(t)] can make of the heap once
    the text node [t] has been created. *)
Lemma splice_outcome (d : doc) (r : option ref) (before_it : bool) :
  let t := fresh (dom (heap d)) in
  let h1 := <[t := Node Text "" None [] []]> (heap d) in
  exists res h',
    (if before_it then before r (Some t) else after r (Some t))
      (with_heap h1 d) = (res, with_heap h' d) /\
    text_placed (heap d) h' /\ is_Some (h' !! t).
Proof.
  intros t h1.
  assert (Ht : heap d !! t = None) by apply fresh_unmapped.
  assert (Hstay : forall res : completion unit,
            exists res0 h',
              (res, with_heap h1 d) = (res0, with_heap h' d) /\
              text_placed (heap d) h' /\ is_Some (h' !! t)).
  { intros res. exists res, h1. split; [reflexivity|]. split.
    - apply text_placed_detached.
    - unfold h1. rewrite lookup_insert_eq. eauto. }
  assert (Hgen : forall place : ref -> ref -> list ref -> list ref,
            (place = splice_before \/ place = splice_after) ->
            exists res h',
              (let* (i, n) := deref r in
               if is_child_node (node_kind n) then
                 match parentNode n with
                 | None => ret tt
                 | Some p => insert_checked (Some p) (Some t) (place i)
                 end
               else throw TypeError) (with_heap h1 d)
                = (res, with_heap h' d) /\
              text_placed (heap d) h' /\ is_Some (h' !! t)).
  { intros place Hplace. unfold bind at 1.
    destruct r as [i|]; [|apply Hstay]. unfold deref, bind at 1, gets at 1.
    change (heap (with_heap h1 d)) with h1. unfold h1 at 1.
    rewrite lookup_insert. destruct (decide (t = i)) as [<-|Hti].
    - apply Hstay.
    - destruct (heap d !! i) as [n|] eqn:Hi; [|apply Hstay].
      unfold ret at 1. cbv iota beta.
      destruct (is_child_node (node_kind n)); [|apply Hstay].
      destruct (parentNode n) as [p|] eqn:Hp; [|apply Hstay].
      pose proof (insert_text_outcome d (Some p) (place i)) as Hout.
      cbv zeta in Hout. fold t in Hout. fold h1 in Hout.
      destruct Hout as [(e & ->)|(pi & pn & Hpi & Hpn & ->)]; [apply Hstay|].
      injection Hpi as <-.
      assert (Hpt : p ≠ t) by congruence.
      eexists _, _. split; [reflexivity|]. split.
      + right. right. exists p, pn, (place i t (childNodes pn)).
        split; [assumption|]. split; [reflexivity|]. right.
        exists i, n. split; [assumption|]. split; [assumption|].
        destruct Hplace as [-> | ->]; auto.
      + apply is_Some_placed. assumption. }
  destruct before_it.
  - apply (Hgen splice_before). auto.
  - apply (Hgen splice_after). auto.
Qed.

Lemma append_outcome (d : doc) (p : option ref) :
  let t := fresh (dom (heap d)) in
  let h1 := <[t := Node Text "" None [] []]> (heap d) in
  exists res h',
    appendChild p (Some t) (with_heap h1 d) = (res, with_heap h' d) /\
    text_placed (heap d) h' /\ is_Some (h' !! t) /\
    (forall r, res = Ok r -> r = Some t).
Proof.
  intros t h1. unfold appendChild, bind.
  pose proof (insert_text_outcome d p (λ n l, l ++ [n])) as Hout.
  cbv zeta in Hout. fold t in Hout. fold h1 in Hout.
  destruct Hout as [(e & ->)|(pi & pn & Hpi & Hpn & ->)].
  - exists (Throw e), h1. split; [reflexivity|]. split.
    + apply text_placed_detached.
    + split; [|discriminate]. unfold h1. rewrite lookup_insert_eq. eauto.
  - assert (Hpt : pi ≠ t).
    { intros ->. pose proof (fresh_unmapped (heap d)) as Ht. fold t in Ht.
      congruence. }
    eexists _, _. split; [reflexivity|]. split; [|split].
    + right. right. exists pi, pn, (childNodes pn ++ [t]).
      split; [assumption|]. split; [reflexivity|]. left. reflexivity.
    + apply is_Some_placed. assumption.
    + intros r [= <-]. reflexivity.
Qed.

Lemma create_text_none_run (d : doc) :
  create_text None d =
    (Ok (Some (fresh (dom (heap d)))),
     with_heap (<[fresh (dom (heap d)) := Node Text "" None [] []]> (heap d)) d).
Proof. reflexivity. Qed.

Lemma walked_unchanged (d : doc) (res : completion (option ref)) :
  (forall r, res = Ok r -> hydrating d = true ->
             hydrate_node d = r /\ claimed d d r) ->
  walked d (res, d).
Proof.
  intros Hok. unfold walked. simpl. split; [reflexivity|].
  split; [left; reflexivity|]. split; [reflexivity|].
  destruct res as [r|e]; [|reflexivity]. intros Hh. apply Hok; auto.
Qed.

Lemma walked_moved (d : doc) (r : option ref) :
  hydrating d = true ->
  claimed d (with_cursor r d) r -> walked d (Ok r, with_cursor r d).
Proof.
  intros Hh Hc. unfold walked. simpl. split; [reflexivity|].
  split; [left; reflexivity|]. split; [congruence|]. auto.
Qed.

Lemma walked_created (d : doc) (h' : gmap ref node)
    (res : completion unit) :
  hydrating d = true ->
  text_placed (heap d) h' -> is_Some (h' !! fresh (dom (heap d))) ->
  walked d
    match res with
    | Ok _ => (Ok (Some (fresh (dom (heap d)))),
               with_cursor (Some (fresh (dom (heap d)))) (with_heap h' d))
    | Throw e => (Throw e, with_heap h' d)
    end.
Proof.
  intros Hh Hpl Hin. unfold walked.
  destruct res as [u|e]; simpl; (split; [reflexivity|]);
    (split; [assumption|]); (split; [congruence|]).
  - intros _. split; [reflexivity|]. right. right. right. auto.
  - reflexivity.
Qed.

Lemma get_first_child_outcome (d : doc) (r : option ref) :
  exists res, get_first_child r d = (res, d) /\
    forall c, res = Ok (Some c) ->
      exists i n, heap d !! i = Some n /\ c ∈ childNodes n.
Proof.
  run. destruct r as [i|]; [|exists (Throw TypeError); split; [reflexivity|discriminate]].
  destruct (heap d !! i) as [n|] eqn:Hi; simpl;
    [|exists (Throw TypeError); split; [reflexivity|discriminate]].
  eexists. split; [reflexivity|]. intros c [= Hc]. exists i, n.
  split; [assumption|]. apply head_Some_elem_of. assumption.
Qed.

Lemma following_elem_of (i x : ref) (l : list ref) :
  following i l = Some x -> x ∈ l.
Proof.
  induction l as [|y l IH]; simpl; [discriminate|].
  destruct (decide (y = i)).
  - intros H. apply elem_of_cons. right. apply head_Some_elem_of. assumption.
  - intros H. apply elem_of_cons. right. auto.
Qed.

Lemma next_of_listed (d : doc) (r : option ref) (x : ref) :
  next_of d r = Ok (Some x) ->
  exists i n, heap d !! i = Some n /\ x ∈ childNodes n.
Proof.
  unfold next_of. run. destruct r as [i|]; [|discriminate].
  destruct (heap d !! i) as [n|]; simpl; [|discriminate].
  destruct (parentNode n) as [p|]; [|discriminate].
  destruct (heap d !! p) as [pn|] eqn:Hp; simpl; [|discriminate].
  intros [= H]. exists p, pn. split; [assumption|].
  eapply following_elem_of. eassumption.
Qed.

Lemma hop_claimed (d d' : doc) (k : nat) (start landing : option ref) :
  hop d k start = Ok landing ->
  landing = start \/ landing = None \/
  exists i n x, heap d !! i = Some n /\ landing = Some x /\ x ∈ childNodes n.
Proof.
  destruct k as [|k]; simpl.
  - intros [= <-]. auto.
  - destruct (hop d k start) as [r|]; [|discriminate]. intros H.
    destruct landing as [x|]; [|auto]. right. right.
    destruct (next_of_listed d r x H) as (i & n & Hi & Hx). eauto 6.
Qed.

Lemma child_walked (d : doc) (node : option ref) (is_text : bool) :
  walked d (child node is_text d).
Proof.
  destruct (hydrating d) eqn:Hh.
  - rewrite child_hydrating_run by assumption. unfold bind at 1.
    destruct (get_first_child_outcome d (hydrate_node d)) as (res & -> & Hres).
    destruct res as [[c|]|e].
    + unfold bind at 1.
      assert (Hmis : exists b,
                (if is_text
                 then let* ty := nodeType (Some c) in
                      ret (negb (bool_decide (ty = Some TEXT_NODE)))
                 else ret false) d = (Ok b, d)).
      { destruct is_text; [|eexists; reflexivity].
        rewrite child_mismatch_run. eauto. }
      destruct Hmis as (b & ->). destruct b.
      * unfold bind at 1. rewrite create_text_none_run.
        unfold bind at 1. unfold optional, bind at 1.
        destruct (splice_outcome d (Some c) true) as (r & h' & -> & Hpl & Hin).
        destruct r as [u|e]; [apply (walked_created d h' (Ok tt))
                             |apply (walked_created d h' (Throw e))]; auto.
      * apply walked_moved; [assumption|]. right. right. left.
        destruct (Hres c eq_refl) as (i & n & Hi & Hc). eauto 6.
    + unfold bind at 1. rewrite create_text_none_run. unfold bind at 1.
      destruct (append_outcome d (hydrate_node d))
        as (r & h' & -> & Hpl & Hin & Hr).
      destruct r as [x|e].
      * rewrite (Hr x eq_refl).
        apply (walked_created d h' (Ok tt)); auto.
      * apply (walked_created d h' (Throw e)); auto.
    + apply walked_unchanged. discriminate.
  - rewrite child_not_hydrating by assumption.
    destruct (read_only_get_first_child node d) as [Hs _].
    destruct (get_first_child node d) as [res d']. simpl in Hs. subst d'.
    apply walked_unchanged. congruence.
Qed.

Lemma first_child_walked (d : doc) (fragment : option ref) (is_text : bool) :
  walked d (first_child fragment is_text d).
Proof.
  destruct (hydrating d) eqn:Hh.
  - rewrite first_child_hydrating_run by assumption. unfold bind at 1.
    assert (Hmis : exists b,
              (if is_text
               then let* ty := optional (hydrate_node d)
                                 (nodeType (hydrate_node d)) in
                    ret (negb (bool_decide (ty = Some (Some TEXT_NODE))))
               else ret false) d = (Ok b, d)).
    { destruct is_text; [|eexists; reflexivity].
      rewrite text_mismatch_run. eauto. }
    destruct Hmis as (b & ->). destruct b.
    + unfold bind at 1. rewrite create_text_none_run. unfold bind at 1.
      destruct (hydrate_node d) as [c|] eqn:Hc.
      * unfold optional, bind at 1.
        destruct (splice_outcome d (Some c) true) as (r & h' & -> & Hpl & Hin).
        destruct r as [u|e]; [apply (walked_created d h' (Ok tt))
                             |apply (walked_created d h' (Throw e))]; auto.
      * apply (walked_created d _ (Ok tt)); auto.
        -- apply text_placed_detached.
        -- simpl. rewrite lookup_insert_eq. eauto.
    + apply walked_unchanged. intros r [= <-] _. split; [reflexivity|].
      left. reflexivity.
  - rewrite first_child_not_hydrating by assumption.
    destruct (read_only_first_child_body fragment d) as [Hs _].
    match goal with |- walked d ?x => destruct x as [res d'] end.
    simpl in Hs. subst d'. apply walked_unchanged. congruence.
Qed.

Lemma sibling_walked (d : doc) (node : option ref) (count : option nat)
    (is_text : option bool) :
  walked d (sibling node count is_text d).
Proof.
  destruct (hydrating d) eqn:Hh.
  - rewrite sibling_hydrating_run by assumption.
    destruct (hop d (default 1%nat count) (hydrate_node d)) as [landing|e]
      eqn:Hhop; [|apply walked_unchanged; discriminate].
    destruct (default false is_text && negb (is_text_node d landing)).
    + cbv zeta. unfold place_text. destruct landing as [l|].
      * destruct (splice_outcome d (Some l) true) as (r & h' & -> & Hpl & Hin).
        destruct r as [u|e]; [apply (walked_created d h' (Ok tt))
                             |apply (walked_created d h' (Throw e))]; auto.
      * destruct (last_reached d (default 1%nat count) (hydrate_node d))
          as [l|].
        -- destruct (splice_outcome d (Some l) false)
             as (r & h' & -> & Hpl & Hin).
           destruct r as [u|e]; [apply (walked_created d h' (Ok tt))
                                |apply (walked_created d h' (Throw e))]; auto.
        -- apply (walked_created d _ (Ok tt)); auto.
           ++ apply text_placed_detached.
           ++ rewrite lookup_insert_eq. eauto.
    + apply walked_moved; [assumption|].
      destruct (hop_claimed d d _ _ _ Hhop) as [->|[->|H]].
      * left. reflexivity.
      * right. left. reflexivity.
      * right. right. left. assumption.
  - rewrite sibling_plain_run by assumption.
    apply walked_unchanged. congruence.
Qed.

Lemma walked_cursor_follows (d : doc) (out : completion (option ref) * doc) :
  hydrating d = true -> walked d out -> cursor_follows d out.
Proof.
  intros Hh (_ & _ & _ & H). unfold cursor_follows.
  destruct (fst out); [apply H; assumption|assumption].
Qed.

Lemma walked_keeps_nodes (d : doc) (out : completion (option ref) * doc) :
  walked d out -> keeps_nodes d out.
Proof.
  intros (Hh & Hpl & _). split; [assumption|].
  apply text_placed_undisturbed. assumption.
Qed.

Lemma walked_well_formed (d : doc) (out : completion (option ref) * doc) :
  walked d out -> well_formed d -> well_formed (snd out).
Proof.
  intros (Hh & Hpl & Hplain & Hcur) [Hts Hok].
  split; [eapply text_placed_tree_shaped; eassumption|].
  destruct (text_placed_undisturbed _ _ Hpl) as [Hund _].
  assert (Hstill : forall c, is_Some (heap d !! c) ->
            is_Some (heap (snd out) !! c)).
  { intros c [n Hn]. destruct (Hund c n Hn) as (n' & Hn' & _). eauto. }
  destruct (hydrating d) eqn:Hhy.
  - intros c Hc. destruct (fst out) as [r|e].
    + destruct (Hcur eq_refl) as [Hr Hcl]. rewrite Hr in Hc. subst r.
      destruct Hcl as [Hold|[Hnone|[(i & n & x & Hi & Hx & Hin)|[Hnew Hin]]]].
      * apply Hstill, Hok. congruence.
      * discriminate.
      * injection Hx as ->. apply Hstill.
        destruct (tree_shaped_child_mapped _ i x n Hts Hi Hin) as (cn & Hcn & _).
        eauto.
      * injection Hnew as ->. assumption.
    + apply Hstill, Hok. congruence.
  - rewrite Hplain by reflexivity. assumption.
Qed.

(** X11.  During hydration the cursor and the returned node agree at the
    exit of every walker: when [first_child], [child] or [sibling]
    returns, the hydration cursor is on the node it returned; when it
    throws, the cursor is where it was. *)
Theorem walkers_leave_cursor_on_result
    (d : doc) (node : option ref) (is_text : bool)
    (count : option nat) (expect : option bool) :
  hydrating d = true ->
  cursor_follows d (first_child node is_text d) /\
  cursor_follows d (child node is_text d) /\
  cursor_follows d (sibling node count expect d).
Proof.
  intros Hh. split; [|split]; apply walked_cursor_follows; auto.
  - apply first_child_walked.
  - apply child_walked.
  - apply sibling_walked.
Qed.

(** X12.  In either mode, and whether it returns or throws, a walker never
    removes a node and never changes the kind, data, parent or attributes
    of a node; the children a node lists stay listed in their order; at
    most one node is added, the one a fresh allocation gives, and it is an
    empty text node without children; and the mode flag is not touched. *)
Theorem walkers_keep_nodes
    (d : doc) (node : option ref) (is_text : bool)
    (count : option nat) (expect : option bool) :
  keeps_nodes d (first_child node is_text d) /\
  keeps_nodes d (child node is_text d) /\
  keeps_nodes d (sibling node count expect d).
Proof.
  split; [|split]; apply walked_keeps_nodes.
  - apply first_child_walked.
  - apply child_walked.
  - apply sibling_walked.
Qed.

(** X13.  The walkers keep the document in good order.  If the heap is a
    forest (no child listed twice, every listed child a node that points
    back to its lister, every node with a parent listed by it) and the
    cursor is [null] or a node of the heap, then the same holds after
    [first_child], [child] or [sibling], in either mode, whether the call
    returned or threw. *)
Theorem walkers_keep_document_well_formed
    (d : doc) (node : option ref) (is_text : bool)
    (count : option nat) (expect : option bool) :
  well_formed d ->
  well_formed (snd (first_child node is_text d)) /\
  well_formed (snd (child node is_text d)) /\
  well_formed (snd (sibling node count expect d)).
Proof.
  intros Hwf. split; [|split].
  - eapply walked_well_formed; [apply first_child_walked|assumption].
  - eapply walked_well_formed; [apply child_walked|assumption].
  - eapply walked_well_formed; [apply sibling_walked|assumption].
Qed.

(** * The node factory, continued *)

Lemma tree_shaped_new_node (h : gmap ref node) (t : ref) (n0 : node) :
  h !! t = None -> parentNode n0 = None -> childNodes n0 = [] ->
  tree_shaped h -> tree_shaped (<[t := n0]> h).
Proof.
  intros Ht Hp0 Hc0 Hts.
  intros i n Hi. rewrite lookup_insert in Hi.
  destruct (decide (t = i)) as [<-|Hti].
  - injection Hi as <-. rewrite Hp0, Hc0.
    repeat split; [constructor|constructor|auto].
  - destruct (Hts i n Hi) as (Hnd & Hall & Hpar). split; [assumption|]. split.
    + rewrite Forall_forall in *. intros c Hc.
      destruct (tree_shaped_child_mapped h i c n Hts Hi Hc) as (cn & Hcn & _).
      rewrite lookup_insert_ne by congruence. auto.
    + destruct (parentNode n) as [p|] eqn:Hp; [|auto]. right.
      destruct (tree_shaped_parent_lists h i p n Hts Hi Hp) as (pn & Hpn & Hin).
      unfold siblings_of. rewrite Hp, lookup_insert_ne by congruence.
      rewrite Hpn. assumption.
Qed.

Lemma creates_well_formed (k : kind) (v : string) (d : doc)
    (out : completion (option ref) * doc) :
  creates k v d out -> well_formed d ->
  well_formed (snd out) /\ hydrate_node (snd out) = hydrate_node d /\
  hydrating (snd out) = hydrating d /\
  forall i n, heap d !! i = Some n -> heap (snd out) !! i = Some n.
Proof.
  intros (t & Ht & ->) [Hts Hok]. simpl.
  assert (Hfr : forall i n, heap d !! i = Some n ->
                            <[t := Node k v None [] []]> (heap d) !! i = Some n).
  { intros i n Hi. rewrite lookup_insert_ne by congruence. assumption. }
  split; [split|split; [reflexivity|split; [reflexivity|exact Hfr]]].
  - apply tree_shaped_new_node; auto.
  - intros c Hc. simpl in *. destruct (Hok c Hc) as [n Hn].
    exists n. apply Hfr; assumption.
Qed.

(** X14.  Every factory call makes one new node and returns it:
    [create_text] a text node and [create_comment] a comment holding the
    given data (the empty string when it is omitted), [create_fragment] a
    fragment.  The node was not in the heap before, has no parent and no
    children, so it is in nobody's child list; every node that was there
    is unchanged, the cursor and the mode are untouched, and a document in
    good order stays in good order. *)
Theorem factories_make_new_detached_nodes (d : doc) (v : option string) :
  creates Text (default ""%string v) d (create_text v d) /\
  creates Comment (default ""%string v) d (create_comment v d) /\
  creates DocumentFragment "" d (create_fragment d) /\
  forall k s out, creates k s d out -> well_formed d ->
    well_formed (snd out) /\ hydrate_node (snd out) = hydrate_node d /\
    hydrating (snd out) = hydrating d /\
    forall i n, heap d !! i = Some n -> heap (snd out) !! i = Some n.
Proof.
  split; [|split; [|split]].
  - exists (fresh (dom (heap d))). split; [apply fresh_unmapped|reflexivity].
  - exists (fresh (dom (heap d))). split; [apply fresh_unmapped|reflexivity].
  - exists (fresh (dom (heap d))). split; [apply fresh_unmapped|reflexivity].
  - intros k s out. apply creates_well_formed.
Qed.

(** ** [clear_text_content] *)

Lemma lookup_orphan (l : list ref) (h : gmap ref node) (x : ref) :
  orphan l h !! x =
    (if decide (x ∈ l) then with_parent None else id) <$> h !! x.
Proof.
  induction l as [|c l IH]; simpl.
  - destruct (decide (x ∈ [])) as [Hin|_]; [inversion Hin|].
    destruct (h !! x); reflexivity.
  - rewrite lookup_alter.
    destruct (decide (c = x)) as [->|Hcx]; rewrite IH;
      destruct (decide (x ∈ l)) as [Hin|Hnin];
      match goal with
      | |- context [decide (x ∈ ?y :: l)] =>
          destruct (decide (x ∈ y :: l)) as [Hin'|Hnin']
      end;
      destruct (h !! x); simpl; try reflexivity; exfalso;
      rewrite ?elem_of_cons, ?not_elem_of_cons in *; intuition congruence.
Qed.

Lemma lookup_cleared (l : list ref) (h : gmap ref node) (i x : ref) :
  alter (with_children []) i (orphan l h) !! x =
    (λ m, (if decide (i = x) then with_children [] else id)
            ((if decide (x ∈ l) then with_parent None else id) m)) <$> h !! x.
Proof.
  rewrite lookup_alter.
  destruct (decide (i = x)) as [->|]; rewrite lookup_orphan;
    destruct (h !! x); reflexivity.
Qed.

Lemma clear_text_content_run (d : doc) (i : ref) (n : node) :
  heap d !! i = Some n ->
  clear_text_content (Some i) d =
    (Ok tt,
     match node_kind n with
     | Element | DocumentFragment =>
         with_heap (alter (with_children []) i
                      (orphan (childNodes n) (heap d))) d
     | Text | Comment => with_heap (<[i := with_data "" n]> (heap d)) d
     | Document => d
     end).
Proof.
  intros Hi. unfold clear_text_content, set_textContent.
  unfold bind at 1. unfold gets at 1. rewrite Hi.
  destruct (node_kind n); reflexivity.
Qed.

(** X15.  [clear_text_content] on an element or a fragment removes all its
    children and creates nothing: afterwards the node has no first child;
    each former child is still a node, but without parent and so without
    siblings; every other node, the cursor and the mode are as they
    were. *)
Theorem clear_text_content_removes_children
    (d : doc) (i : ref) (n : Dom.node) :
  heap d !! i = Some n ->
  node_kind n = Element \/ node_kind n = DocumentFragment ->
  i ∉ childNodes n ->
  exists d',
    clear_text_content (Some i) d = (Ok tt, d') /\
    hydrating d' = hydrating d /\ hydrate_node d' = hydrate_node d /\
    heap d' !! i = Some (with_children [] n) /\
    get_first_child (Some i) d' = (Ok None, d') /\
    (forall c cn, c ∈ childNodes n -> heap d !! c = Some cn ->
       heap d' !! c = Some (with_parent None cn) /\
       get_next_sibling (Some c) d' = (Ok None, d')) /\
    (forall x, x ≠ i -> x ∉ childNodes n -> heap d' !! x = heap d !! x) /\
    dom (heap d') = dom (heap d).
Proof.
  intros Hi Hk Hself.
  exists (with_heap (alter (with_children []) i
                       (orphan (childNodes n) (heap d))) d).
  split.
  { rewrite (clear_text_content_run d i n Hi).
    destruct Hk as [-> | ->]; reflexivity. }
  split; [reflexivity|]. split; [reflexivity|]. simpl.
  assert (Hi' : alter (with_children []) i (orphan (childNodes n) (heap d)) !! i
                = Some (with_children [] n)).
  { rewrite lookup_cleared, Hi. simpl.
    rewrite decide_True by reflexivity. rewrite decide_False by assumption.
    reflexivity. }
  split; [assumption|]. split.
  { run. rewrite Hi'. reflexivity. }
  split; [|split].
  - intros c cn Hc Hcn.
    assert (Hc' : alter (with_children []) i
                    (orphan (childNodes n) (heap d)) !! c
                  = Some (with_parent None cn)).
    { rewrite lookup_cleared, Hcn. simpl.
      rewrite decide_False by (intros ->; contradiction).
      rewrite decide_True by assumption. reflexivity. }
    split; [assumption|]. run. rewrite Hc'. reflexivity.
  - intros x Hx Hnin. rewrite lookup_cleared.
    rewrite decide_False by congruence. rewrite decide_False by assumption.
    destruct (heap d !! x); reflexivity.
  - apply set_eq. intros x. rewrite !elem_of_dom, lookup_cleared.
    rewrite fmap_is_Some. reflexivity.
Qed.

(** X16.  [clear_text_content] throws only on [null], and clearing twice
    is the same as clearing once: the second call returns as the first
    did and leaves the document as the first call left it.  On a text or
    comment node the call empties the data and changes nothing else. *)
Theorem clear_text_content_idempotent (d : doc) (r : option ref) :
  let out := clear_text_content r d in
  clear_text_content r (snd out) = out /\
  (fst out = Throw TypeError <-> r = None) /\
  (fst out = Ok tt <-> r ≠ None) /\
  (forall i n, r = Some i -> heap d !! i = Some n ->
     node_kind n = Text \/ node_kind n = Comment ->
     snd out = with_heap (<[i := with_data "" n]> (heap d)) d).
Proof.
  intros out. subst out. destruct r as [i|].
  2:{ repeat split; try congruence; try discriminate. }
  destruct (heap d !! i) as [n|] eqn:Hi.
  2:{ assert (Hrun : clear_text_content (Some i) d = (Ok tt, d)).
      { unfold clear_text_content, set_textContent, bind, gets. rewrite Hi.
        reflexivity. }
      rewrite Hrun. cbn [fst snd]. rewrite Hrun.
      repeat split; try congruence; try discriminate. }
  rewrite (clear_text_content_run d i n Hi). cbn [fst snd].
  split; [|split; [|split]]; try (split; congruence).
  - destruct (node_kind n) eqn:Hk.
    + set (h' := alter (with_children []) i (orphan (childNodes n) (heap d))).
      assert (Hi' : exists n', h' !! i = Some n' /\ node_kind n' = Element /\
                               childNodes n' = []).
      { unfold h'. rewrite lookup_cleared, Hi. simpl.
        rewrite decide_True by reflexivity. eexists. split; [reflexivity|].
        destruct (decide _); simpl; auto. }
      destruct Hi' as (n' & Hn' & Hk' & Hc').
      assert (Hfix : alter (with_children []) i h' = h').
      { apply map_eq. intros x. rewrite lookup_alter.
        destruct (decide (i = x)) as [<-|]; [|reflexivity].
        rewrite Hn'. simpl. destruct n' as [k0 d0 p0 c0 a0]. simpl in *.
        subst c0. reflexivity. }
      rewrite (clear_text_content_run (with_heap h' d) i n' Hn'), Hk', Hc'.
      change (orphan [] (heap (with_heap h' d))) with h'. rewrite Hfix.
      reflexivity.
    + rewrite (clear_text_content_run _ i (with_data "" n)); simpl;
        [|apply lookup_insert_eq].
      rewrite Hk. unfold with_heap. simpl. rewrite insert_insert_eq.
      reflexivity.
    + rewrite (clear_text_content_run _ i (with_data "" n)); simpl;
        [|apply lookup_insert_eq].
      rewrite Hk. unfold with_heap. simpl. rewrite insert_insert_eq.
      reflexivity.
    + rewrite (clear_text_content_run _ i n Hi), Hk. reflexivity.
    + set (h' := alter (with_children []) i (orphan (childNodes n) (heap d))).
      assert (Hi' : exists n', h' !! i = Some n' /\
                               node_kind n' = DocumentFragment /\
                               childNodes n' = []).
      { unfold h'. rewrite lookup_cleared, Hi. simpl.
        rewrite decide_True by reflexivity. eexists. split; [reflexivity|].
        destruct (decide _); simpl; auto. }
      destruct Hi' as (n' & Hn' & Hk' & Hc').
      assert (Hfix : alter (with_children []) i h' = h').
      { apply map_eq. intros x. rewrite lookup_alter.
        destruct (decide (i = x)) as [<-|]; [|reflexivity].
        rewrite Hn'. simpl. destruct n' as [k0 d0 p0 c0 a0]. simpl in *.
        subst c0. reflexivity. }
      rewrite (clear_text_content_run (with_heap h' d) i n' Hn'), Hk', Hc'.
      change (orphan [] (heap (with_heap h' d))) with h'. rewrite Hfix.
      reflexivity.
  - intros i0 n0 [= <-] Hn0 Hk. assert (n0 = n) by congruence. subst n0.
    destruct Hk as [-> | ->]; reflexivity.
Qed.

(** X17.  [clear_text_content] keeps a document in good order: on a heap
    that is a forest with the cursor in it, the heap after the call is a
    forest again, it has the same nodes, and the cursor (which the call
    does not move, even off a removed child) is still a node. *)
Theorem clear_text_content_keeps_well_formed (d : doc) (r : option ref) :
  well_formed d ->
  well_formed (snd (clear_text_content r d)) /\
  dom (heap (snd (clear_text_content r d))) = dom (heap d) /\
  hydrate_node (snd (clear_text_content r d)) = hydrate_node d.
Proof.
  intros [Hts Hok].
  destruct r as [i|];
    [|split; [split; [exact Hts|exact Hok]|split; reflexivity]].
  destruct (heap d !! i) as [n|] eqn:Hi.
  2:{ assert (Hrun : clear_text_content (Some i) d = (Ok tt, d)).
      { unfold clear_text_content, set_textContent, bind, gets. rewrite Hi.
        reflexivity. }
      rewrite Hrun. split; [split; [exact Hts|exact Hok]|split; reflexivity]. }
  rewrite (clear_text_content_run d i n Hi). cbn [fst snd].
  assert (Hdom : forall h' : gmap ref node,
            (forall x, is_Some (h' !! x) <-> is_Some (heap d !! x)) ->
            dom h' = dom (heap d)).
  { intros h' H. apply set_eq. intros x. rewrite !elem_of_dom. apply H. }
  assert (Hcur : forall h' : gmap ref node,
            (forall x, is_Some (h' !! x) <-> is_Some (heap d !! x)) ->
            cursor_ok (with_heap h' d)).
  { intros h' H c Hc. simpl. apply H, Hok. assumption. }
  assert (Hdata : tree_shaped (<[i := with_data "" n]> (heap d)) /\
                  forall x, is_Some (<[i := with_data "" n]> (heap d) !! x)
                            <-> is_Some (heap d !! x)).
  { split.
    - assert (Hpar : forall x, parentNode <$> <[i := with_data "" n]> (heap d) !! x
                               = parentNode <$> heap d !! x).
      { intros x. rewrite lookup_insert. destruct (decide (i = x)) as [<-|];
          [rewrite Hi|]; reflexivity. }
      assert (Hkid : forall x, childNodes <$> <[i := with_data "" n]> (heap d) !! x
                               = childNodes <$> heap d !! x).
      { intros x. rewrite lookup_insert. destruct (decide (i = x)) as [<-|];
          [rewrite Hi|]; reflexivity. }
      intros x m Hx.
      assert (Hm : exists m0, heap d !! x = Some m0 /\
                   childNodes m = childNodes m0 /\ parentNode m = parentNode m0).
      { rewrite lookup_insert in Hx. destruct (decide (i = x)) as [<-|].
        - injection Hx as <-. eauto.
        - eauto. }
      destruct Hm as (m0 & Hm0 & Hc0 & Hp0).
      destruct (Hts x m0 Hm0) as (Hnd & Hall & Hpar0).
      rewrite Hc0. split; [assumption|]. split.
      + rewrite Forall_forall in *. intros c Hc. rewrite Hpar. auto.
      + destruct Hpar0 as [Hnone|Hin]; [left; congruence|]. right.
        unfold siblings_of in *. rewrite Hp0.
        destruct (parentNode m0) as [q|]; [|assumption].
        specialize (Hkid q).
        destruct (<[i := with_data "" n]> (heap d) !! q) as [a|];
          destruct (heap d !! q) as [b|]; simpl in *; try discriminate;
          congruence.
    - intros x. rewrite lookup_insert. destruct (decide (i = x)) as [<-|];
        [rewrite Hi; split; eauto|reflexivity]. }
  assert (Hclr : tree_shaped (alter (with_children []) i
                                (orphan (childNodes n) (heap d))) /\
                 forall x, is_Some (alter (with_children []) i
                                      (orphan (childNodes n) (heap d)) !! x)
                           <-> is_Some (heap d !! x)).
  { split; [|intros x; rewrite lookup_cleared, fmap_is_Some; reflexivity].
    set (l := childNodes n).
    intros x m Hx. rewrite lookup_cleared in Hx.
    destruct (heap d !! x) as [m0|] eqn:Hm0; [|discriminate].
    simpl in Hx. injection Hx as <-.
    destruct (Hts x m0 Hm0) as (Hnd & Hall & Hpar0).
    split; [|split].
    - destruct (decide (i = x)), (decide (x ∈ l)); simpl;
        auto using NoDup_nil_2.
    - destruct (decide (i = x)) as [<-|Hix].
      + destruct (decide (i ∈ l)); simpl; constructor.
      + assert (Hkids : childNodes
                  ((if decide (x ∈ l) then with_parent None else id) m0)
                  = childNodes m0) by (destruct (decide (x ∈ l)); reflexivity).
        simpl. rewrite Hkids. rewrite Forall_forall in *. intros c Hc.
        rewrite lookup_cleared. specialize (Hall c Hc).
        destruct (heap d !! c) as [cn|] eqn:Hcn; [|discriminate].
        simpl in *. destruct (decide (c ∈ l)) as [Hcl|_].
        * exfalso.
          destruct (tree_shaped_child_mapped _ i c n Hts Hi Hcl)
            as (cn' & Hcn' & Hp'). congruence.
        * destruct (decide (i = c)); simpl; assumption.
    - destruct (decide (x ∈ l)) as [Hxl|Hxl].
      + left. destruct (decide (i = x)); reflexivity.
      + assert (Hsame : parentNode
                  ((if decide (i = x) then with_children [] else id) m0)
                  = parentNode m0) by (destruct (decide (i = x)); reflexivity).
        simpl. destruct Hpar0 as [Hnone|Hin]; [left; congruence|]. right.
        unfold siblings_of in *. rewrite Hsame.
        destruct (parentNode m0) as [q|] eqn:Hq; [|assumption].
        rewrite lookup_cleared.
        destruct (heap d !! q) as [qn|] eqn:Hqn; [|assumption].
        simpl in *. destruct (decide (i = q)) as [<-|Hiq].
        * exfalso. apply Hxl. unfold l. congruence.
        * destruct (decide (q ∈ l)); simpl; assumption. }
  destruct (node_kind n); simpl;
    try (split; [split; [apply Hclr|apply Hcur, Hclr]
                |split; [apply Hdom, Hclr|reflexivity]]);
    try (split; [split; [apply Hdata|apply Hcur, Hdata]
                |split; [apply Hdom, Hdata|reflexivity]]).
  split; [split; [exact Hts|exact Hok]|split; reflexivity].
Qed.

(** * [set_attribute], continued *)

Lemma deref_element_run (d : doc) (r : option ref) :
  deref_element r d =
    match r with
    | Some i =>
        match heap d !! i with
        | Some n =>
            if bool_decide (node_kind n = Element) then (Ok (i, n), d)
            else (Throw TypeError, d)
        | None => (Throw TypeError, d)
        end
    | None => (Throw TypeError, d)
    end.
Proof.
  unfold deref_element. run. destruct r as [i|]; [|reflexivity].
  destruct (heap d !! i) as [n|]; [|reflexivity]. simpl.
  destruct (bool_decide (node_kind n = Element)); reflexivity.
Qed.

Lemma set_attribute_run (m : markup) (d : doc) (element : option ref)
    (key : string) (value : option string) :
  set_attribute m element key value d =
    match element with
    | Some el =>
        match heap d !! el with
        | Some n =>
            if bool_decide (node_kind n = Element) then
              if storable m key then
                (Ok tt,
                 with_heap
                   (<[el := with_attributes
                              (attribute_update m el key
                                 (default ""%string value) (attributes n))
                              n]> (heap d)) d)
              else (Throw InvalidCharacterError, d)
            else (Throw TypeError, d)
        | None => (Throw TypeError, d)
        end
    | None => (Throw TypeError, d)
    end.
Proof.
  destruct element as [el|].
  2:{ unfold set_attribute, setAttributeNS, setAttribute.
      destruct (String.prefix "xlink:" key); reflexivity. }
  destruct (heap d !! el) as [n|] eqn:Hel.
  2:{ unfold set_attribute, setAttributeNS, setAttribute.
      destruct (String.prefix "xlink:" key); unfold bind at 1;
        try unfold bind at 1; rewrite deref_element_run, Hel; reflexivity. }
  destruct (bool_decide (node_kind n = Element)) eqn:Hk.
  2:{ unfold set_attribute, setAttributeNS, setAttribute.
      destruct (String.prefix "xlink:" key); unfold bind at 1;
        try unfold bind at 1; rewrite deref_element_run, Hel, Hk;
        reflexivity. }
  apply bool_decide_eq_true in Hk.
  unfold storable, attribute_update.
  destruct (String.prefix "xlink:" key) eqn:Hpre.
  - apply prefix_xlink in Hpre as [local ->].
    rewrite (set_attribute_xlink_run m d el n local value Hel Hk).
    rewrite split_xlink. reflexivity.
  - apply set_attribute_plain_run; assumption.
Qed.

Lemma put_attr_length (sel : attr -> bool) (a : attr) (l : list attr) :
  (length l <= length (put_attr sel a l) <= S (length l))%nat.
Proof.
  unfold put_attr.
  destruct (revalue sel (attr_value a) l) as [l'|] eqn:E; simpl.
  - assert (length l' = length l); [|lia].
    revert l' E. induction l as [|b l IH]; simpl; intros l' E; [discriminate|].
    destruct (sel b); [injection E as <-; reflexivity|].
    destruct (revalue sel (attr_value a) l) as [l0|]; [|discriminate].
    injection E as <-. simpl. f_equal. apply IH. reflexivity.
  - rewrite length_app. simpl. lia.
Qed.

Lemma tree_shaped_same_links (h h' : gmap ref node) :
  (forall x, parentNode <$> h' !! x = parentNode <$> h !! x) ->
  (forall x, childNodes <$> h' !! x = childNodes <$> h !! x) ->
  tree_shaped h -> tree_shaped h'.
Proof.
  intros Hpar Hkid Hts x m Hx.
  assert (Hm : exists m0, h !! x = Some m0 /\
               childNodes m = childNodes m0 /\ parentNode m = parentNode m0).
  { pose proof (Hpar x) as Hp. pose proof (Hkid x) as Hk. rewrite Hx in Hp, Hk.
    destruct (h !! x) as [m0|]; [|discriminate]. simpl in *.
    exists m0. split; [reflexivity|]. split; congruence. }
  destruct Hm as (m0 & Hm0 & Hc0 & Hp0).
  destruct (Hts x m0 Hm0) as (Hnd & Hall & Hpar0).
  rewrite Hc0. split; [assumption|]. split.
  - rewrite Forall_forall in *. intros c Hc. rewrite Hpar. auto.
  - destruct Hpar0 as [Hnone|Hin]; [left; congruence|]. right.
    unfold siblings_of in *. rewrite Hp0.
    destruct (parentNode m0) as [q|]; [|assumption].
    specialize (Hkid q).
    destruct (h' !! q) as [a|]; destruct (h !! q) as [b|]; simpl in *;
      try discriminate; congruence.
Qed.

(** X18.  [set_attribute] touches attributes only.  On anything but an
    element ([null], a text node, a comment, a fragment, an object that is
    not a node) it throws a [TypeError] and changes nothing.  On an element
    with a key the document does not take (the empty key and [xlink:]
    alone are never taken) it throws an [InvalidCharacterError] and changes
    nothing.  On an element with any other key it returns normally; the
    element keeps its kind, data, parent and children and gets at most one
    attribute more; every other node, the cursor and the mode stay as they
    were.  In each case a document in good order remains in good order. *)
Theorem set_attribute_touches_only_attributes
    (m : markup) (d : doc) (element : option ref) (key : string)
    (value : option string) :
  (is_element d element = false ->
   set_attribute m element key value d = (Throw TypeError, d)) /\
  (forall el n,
     element = Some el -> heap d !! el = Some n -> node_kind n = Element ->
     (storable m key = false ->
      set_attribute m element key value d
        = (Throw InvalidCharacterError, d)) /\
     (storable m key = true ->
      exists l,
        set_attribute m element key value d
          = (Ok tt, with_heap (<[el := with_attributes l n]> (heap d)) d) /\
        (length (attributes n) <= length l
           <= S (length (attributes n)))%nat)) /\
  (storable m "" = false /\ storable m "xlink:" = false) /\
  (well_formed d -> well_formed (snd (set_attribute m element key value d))).
Proof.
  rewrite set_attribute_run. split; [|split; [|split]].
  - unfold is_element. destruct element as [el|]; [|reflexivity].
    destruct (heap d !! el) as [n|]; [|reflexivity].
    intros ->. reflexivity.
  - intros el n -> Hel Hk. rewrite Hel, bool_decide_eq_true_2 by assumption.
    split.
    + intros ->. reflexivity.
    + intros ->. eexists. split; [reflexivity|].
      unfold attribute_update. destruct (String.prefix "xlink:" key);
        apply put_attr_length.
  - split; reflexivity.
  - intros [Hts Hok]. destruct element as [el|]; [|split; assumption].
    destruct (heap d !! el) as [n|] eqn:Hel; [|split; assumption].
    destruct (bool_decide (node_kind n = Element)); [|split; assumption].
    destruct (storable m key); [|split; assumption].
    simpl. split.
    + apply (tree_shaped_same_links (heap d)); [| |exact Hts]; intros x;
        cbn [heap with_heap];
        rewrite lookup_insert; destruct (decide (el = x)) as [<-|];
        rewrite ?Hel; reflexivity.
    + intros c Hc. cbn [heap with_heap hydrate_node] in *.
      rewrite lookup_insert.
      destruct (decide (el = c)); [eauto|]. apply Hok. assumption.
Qed.

Lemma revalue_twice (sel : attr -> bool) (v1 v2 : string) (l l1 : list attr) :
  (forall b v, sel (Attr (attr_ns b) (attr_prefix b) (attr_local b) v) = sel b) ->
  revalue sel v1 l = Some l1 -> revalue sel v2 l1 = revalue sel v2 l.
Proof.
  intros Hst. revert l1. induction l as [|b l IH]; simpl; intros l1 E;
    [discriminate|].
  destruct (sel b) eqn:Hb.
  - injection E as <-. simpl. rewrite Hst, Hb. reflexivity.
  - destruct (revalue sel v1 l) as [l0|]; [|discriminate].
    injection E as <-. simpl. rewrite Hb, (IH l0 eq_refl). reflexivity.
Qed.

Lemma revalue_none_any (sel : attr -> bool) (v1 v2 : string) (l : list attr) :
  revalue sel v1 l = None -> revalue sel v2 l = None.
Proof.
  induction l as [|b l IH]; simpl; [reflexivity|].
  destruct (sel b); [discriminate|].
  destruct (revalue sel v1 l); [discriminate|]. intros _.
  rewrite IH; reflexivity.
Qed.

Lemma revalue_app_last (sel : attr -> bool) (v : string) (l : list attr)
    (a : attr) :
  revalue sel v l = None -> sel a = true ->
  revalue sel v (l ++ [a])
    = Some (l ++ [Attr (attr_ns a) (attr_prefix a) (attr_local a) v]).
Proof.
  intros Hn Ha. induction l as [|b l IH]; simpl in *.
  - rewrite Ha. reflexivity.
  - destruct (sel b); [discriminate|].
    destruct (revalue sel v l); [discriminate|]. rewrite IH; reflexivity.
Qed.

Lemma put_attr_twice (sel : attr -> bool) (ns pre : option string)
    (local v1 v2 : string) (l : list attr) :
  (forall b v, sel (Attr (attr_ns b) (attr_prefix b) (attr_local b) v) = sel b) ->
  sel (Attr ns pre local v1) = true ->
  put_attr sel (Attr ns pre local v2) (put_attr sel (Attr ns pre local v1) l)
    = put_attr sel (Attr ns pre local v2) l.
Proof.
  intros Hst Ha. unfold put_attr. simpl.
  destruct (revalue sel v1 l) as [l1|] eqn:E1; simpl.
  - rewrite (revalue_twice sel v1 v2 l l1 Hst E1).
    destruct (revalue sel v2 l) eqn:E2; [reflexivity|].
    rewrite (revalue_none_any _ v2 v1 _ E2) in E1. discriminate.
  - rewrite (revalue_app_last sel v2 l _ (revalue_none_any _ _ _ _ E1) Ha).
    rewrite (revalue_none_any _ _ v2 _ E1). reflexivity.
Qed.

Lemma attribute_update_twice (m : markup) (el : ref) (key v1 v2 : string)
    (l : list attr) :
  attribute_update m el key v2 (attribute_update m el key v1 l)
    = attribute_update m el key v2 l.
Proof.
  unfold attribute_update. destruct (String.prefix "xlink:" key).
  - apply put_attr_twice.
    + intros b v. reflexivity.
    + unfold same_ns_local. simpl. rewrite !bool_decide_eq_true_2; reflexivity.
  - apply put_attr_twice.
    + intros b v. reflexivity.
    + unfold same_qualified. simpl. apply bool_decide_eq_true_2. reflexivity.
Qed.

(** X19.  The last write wins: setting an attribute and then setting the
    same key again is the same as setting it once to the second value.
    No second attribute of that name appears and the first value leaves no
    trace, for plain and for [xlink:] keys, and on a target that is not an
    element, or with a key the document does not take, both sides throw
    alike. *)
Theorem set_attribute_last_write_wins
    (m : markup) (d : doc) (element : option ref) (key : string)
    (v1 v2 : option string) :
  (set_attribute m element key v1 ;; set_attribute m element key v2) d
    = set_attribute m element key v2 d.
Proof.
  unfold bind.
  rewrite (set_attribute_run m d element key v1),
    (set_attribute_run m d element key v2).
  destruct element as [el|]; [|reflexivity].
  destruct (heap d !! el) as [n|] eqn:Hel; [|reflexivity].
  destruct (bool_decide (node_kind n = Element)) eqn:Hk; [|reflexivity].
  destruct (storable m key) eqn:Hst; [|reflexivity].
  rewrite set_attribute_run. cbn [heap with_heap].
  rewrite lookup_insert_eq. cbn [node_kind with_attributes attributes].
  rewrite Hk, Hst. unfold with_heap, with_attributes. cbn [heap hydrating
    hydrate_node node_kind data parentNode childNodes attributes].
  rewrite insert_insert_eq, attribute_update_twice. reflexivity.
Qed.






(** * Traversals as the compiled templates make them *)

Lemma get_first_child_run (d : doc) (p : ref) (pn : node) :
  heap d !! p = Some pn ->
  get_first_child (Some p) d = (Ok (head (childNodes pn)), d).
Proof. intros Hp. run. rewrite Hp. reflexivity. Qed.

(** X21.  [child] followed by [sibling] enumerates the children of a
    node.  For a parent that has children, lists none twice and is the
    parent of each: outside hydration [child] returns the first child and
    [sibling] from it with count [k] returns the child at index [k]
    ([null] when [k] is the number of children); during hydration with the
    cursor on the parent and no text expected the same nodes are returned
    and the cursor ends on the last of them. *)
Theorem child_then_sibling_reaches_kth_child
    (d : doc) (node node' : option ref) (p : ref) (pn : Dom.node) (k : nat)
    (c : ref) (t1 : bool) (t2 : option bool) :
  heap d !! p = Some pn -> NoDup (childNodes pn) ->
  Forall (λ x, parentNode <$> heap d !! x = Some (Some p)) (childNodes pn) ->
  head (childNodes pn) = Some c ->
  (k <= length (childNodes pn))%nat ->
  (hydrating d = false ->
   child (Some p) t1 d = (Ok (Some c), d) /\
   sibling (Some c) (Some k) t2 d = (Ok (childNodes pn !! k), d)) /\
  (hydrating d = true -> hydrate_node d = Some p ->
   child node false d = (Ok (Some c), with_cursor (Some c) d) /\
   sibling node' (Some k) (Some false) (with_cursor (Some c) d)
     = (Ok (childNodes pn !! k), with_cursor (childNodes pn !! k) d)).
Proof.
  intros Hp Hnd Hall Hc Hk.
  assert (Hc0 : childNodes pn !! 0%nat = Some c).
  { rewrite <- head_lookup. assumption. }
  split.
  - intros Hh. split.
    + rewrite child_not_hydrating by assumption.
      rewrite (get_first_child_run d p pn Hp), Hc. reflexivity.
    + rewrite sibling_plain_run by assumption. simpl.
      rewrite (hop_by_index d p pn 0 k c) by assumption.
      rewrite decide_True by (simpl; lia). reflexivity.
  - intros Hh Hcur. split.
    + rewrite child_hydrating_run by assumption. rewrite Hcur.
      unfold bind at 1. rewrite (get_first_child_run d p pn Hp), Hc.
      reflexivity.
    + rewrite sibling_advance_run by assumption. simpl.
      rewrite (hop_by_index (with_cursor (Some c) d) p pn 0 k c) by assumption.
      rewrite decide_True by (simpl; lia). reflexivity.
Qed.

Lemma hop_same_heap (d1 d2 : doc) (k : nat) (s : option ref) :
  heap d1 = heap d2 -> hop d1 k s = hop d2 k s.
Proof.
  intros Hh. induction k as [|k IH]; simpl; [reflexivity|].
  rewrite IH. destruct (hop d2 k s) as [r|]; [|reflexivity].
  unfold next_of. destruct r as [i|]; [|reflexivity]. run. rewrite Hh.
  destruct (heap d2 !! i) as [n|]; simpl; [|reflexivity].
  destruct (parentNode n) as [q|]; [|reflexivity]. rewrite Hh.
  destruct (heap d2 !! q); reflexivity.
Qed.

(** X22.  On a live tree that already matches, hydration and fresh
    rendering hand out the same nodes.  Take two documents with the same
    heap, one hydrating with its cursor on [node], one not.  Then
    [sibling], with no text expected, returns or throws the same in both
    for every count; and [child], with no text expected, returns the same
    node in both whenever [node] has a first child, and throws the same in
    both when the accessor throws. *)
Theorem hydration_agrees_with_fresh_traversal
    (dh df : doc) (node other : option ref) (count : option nat)
    (t1 : bool) (t2 : option bool) :
  heap dh = heap df ->
  hydrating dh = true -> hydrating df = false ->
  hydrate_node dh = node ->
  fst (sibling other count (Some false) dh) = fst (sibling node count t2 df) /\
  (fst (child node t1 df) ≠ Ok None ->
   fst (child other false dh) = fst (child node t1 df)).
Proof.
  intros Hheap Hh Hf Hcur. split.
  - rewrite sibling_advance_run, sibling_plain_run by assumption.
    rewrite Hcur, (hop_same_heap dh df) by assumption. simpl.
    destruct (hop df (default 1%nat count) node); reflexivity.
  - rewrite (child_hydrating_run dh), (child_not_hydrating df) by assumption.
    rewrite Hcur. unfold bind at 1.
    assert (Hsame : fst (get_first_child node dh) = fst (get_first_child node df)
                    /\ snd (get_first_child node dh) = dh).
    { split; [|apply read_only_get_first_child].
      destruct node as [i|]; [|reflexivity]. run. rewrite Hheap.
      destruct (heap df !! i); reflexivity. }
    destruct Hsame as [Hfst Hsnd].
    destruct (get_first_child node dh) as [res d'] eqn:E. simpl in *.
    subst d'. rewrite <- Hfst.
    destruct res as [[c|]|e]; [reflexivity|congruence|reflexivity].
Qed.

(** * The deferred-append policy, continued *)

(** X23.  [should_defer_append] looks at one bit.  With the [EFFECT_RAN]
    bit at a position below 31, two states of the runtime with the same
    async mode whose active effects agree on that bit of their flags get
    the same answer, whatever the other bits are and however far the
    flags reach beyond 32 bits. *)
Theorem should_defer_append_depends_on_one_bit
    (ran_bit : Z) (async : bool) (e1 e2 : effect) :
  0 <= ran_bit < 31 ->
  Z.testbit (f e1) ran_bit = Z.testbit (f e2) ran_bit ->
  should_defer_append ran_bit (Runtime async (Some e1))
    = should_defer_append ran_bit (Runtime async (Some e2)).
Proof.
  intros Hk Hbit. unfold should_defer_append. simpl.
  destruct async; simpl; [|reflexivity].
  rewrite !ran_mask by assumption. rewrite Hbit. reflexivity.
Qed.

(** * Instances of the further statements *)

Lemma row_tree_shaped : tree_shaped Fixture.row.
Proof. apply (bool_decide_unpack _). vm_compute. exact I. Defined.

Lemma row_well_formed (hy : bool) (c : ref) :
  (1 <= c <= 4)%nat -> well_formed (Doc Fixture.row hy (Some c)).
Proof.
  intros Hc. split; [exact row_tree_shaped|].
  intros x [= <-]. simpl.
  assert (c = 1 \/ c = 2 \/ c = 3 \/ c = 4)%nat as [->|[->|[->| ->]]] by lia;
    vm_compute; eauto.
Defined.

Lemma row_children_point_back :
  Forall (λ x, parentNode <$> Fixture.row !! x = Some (Some 1%nat))
    [2%nat; 3%nat; 4%nat].
Proof. apply (bool_decide_unpack _). vm_compute. exact I. Defined.

Lemma row_children_distinct : NoDup [2%nat; 3%nat; 4%nat].
Proof. apply (bool_decide_unpack _). vm_compute. exact I. Defined.

Lemma init_operations_detects_firefox_witness :
  Env.is_firefox (snd (Env.init_operations Fixture.browser)) = Some true.
Proof.
  destruct (init_operations_detects_firefox Fixture.browser eq_refl)
    as (_ & Hiff & _).
  apply Hiff. exists 0%nat. reflexivity.
Defined.

Lemma init_operations_reserves_slots_witness :
  exists e',
    Env.init_operations Fixture.browser = (Ok tt, e') /\
    Env.prop_value <$> Env.own (Env.element_prototype e') !! "__attributes"%string
      = Some Env.Null.
Proof.
  destruct (init_operations_reserves_slots Fixture.browser)
    as (e' & Hrun & _ & _ & _ & _ & Hattr & _);
    try reflexivity;
    try (intros k p Hk; simpl in Hk; rewrite lookup_empty in Hk; discriminate).
  exists e'. split; assumption.
Defined.

Lemma sibling_moves_by_index_witness :
  sibling (Some 2%nat) (Some 2%nat) None (Doc Fixture.row false None)
    = (Ok (Some 4%nat), Doc Fixture.row false None) /\
  sibling None (Some 4%nat) (Some false) (Doc Fixture.row true (Some 2%nat))
    = (Throw TypeError, Doc Fixture.row true (Some 2%nat)).
Proof.
  split.
  - apply (sibling_moves_by_index (Doc Fixture.row false None) None 1%nat
             Fixture.the_p 0%nat 2%nat 2%nat None eq_refl
             row_children_distinct row_children_point_back eq_refl).
    reflexivity.
  - apply (sibling_moves_by_index (Doc Fixture.row true (Some 2%nat)) None
             1%nat Fixture.the_p 0%nat 4%nat 2%nat None eq_refl
             row_children_distinct row_children_point_back eq_refl);
      reflexivity.
Defined.

Lemma sibling_twice_visits_distinct_nodes_witness :
  sibling None None None (Doc Fixture.row true (Some 2%nat))
    = (Ok (Some 3%nat), Doc Fixture.row true (Some 3%nat)) /\
  sibling None None None (Doc Fixture.row true (Some 3%nat))
    = (Ok (Some 4%nat), Doc Fixture.row true (Some 4%nat)).
Proof.
  destruct (sibling_twice_visits_distinct_nodes
              (Doc Fixture.row true (Some 2%nat)) None None 1%nat
              Fixture.the_p 0%nat 2%nat 3%nat 4%nat eq_refl eq_refl eq_refl
              row_children_distinct row_children_point_back
              eq_refl eq_refl eq_refl) as (H1 & H2 & _).
  split; assumption.
Defined.

Lemma sibling_composes_witness :
  sibling (Some 3%nat) (Some 1%nat) None (Doc Fixture.row false None)
    = sibling (Some 2%nat) (Some 2%nat) None (Doc Fixture.row false None).
Proof.
  apply (proj1 (sibling_composes (Doc Fixture.row false None)
                  (Doc Fixture.row false None) (Some 2%nat) None None
                  (Some 3%nat) 1%nat 1%nat None None None));
    reflexivity.
Defined.

Lemma child_claims_matching_child_witness :
  child None false (Doc Fixture.row true (Some 1%nat))
    = (Ok (Some 2%nat), Doc Fixture.row true (Some 2%nat)).
Proof.
  apply (child_claims_matching_child (Doc Fixture.row true (Some 1%nat))
           None false 1%nat 2%nat Fixture.the_p); try reflexivity.
  left. reflexivity.
Defined.

Lemma child_fails_without_room_witness :
  fst (child None true (Doc Fixture.row true (Some 3%nat)))
    = Throw HierarchyRequestError /\
  hydrate_node (snd (child None true (Doc Fixture.row true (Some 3%nat))))
    = Some 3%nat.
Proof.
  destruct (child_fails_without_room (Doc Fixture.row true (Some 3%nat))
              None true eq_refl) as [_ H].
  assert (Hrun := H 3%nat (Node Text "hi" (Some 1%nat) [] []) eq_refl eq_refl
                    eq_refl).
  rewrite Hrun; [split; reflexivity|discriminate|discriminate].
Defined.

Lemma first_child_returns_matching_cursor_witness :
  first_child None true (Doc Fixture.row true (Some 3%nat))
    = (Ok (Some 3%nat), Doc Fixture.row true (Some 3%nat)).
Proof.
  apply (first_child_returns_matching_cursor
           (Doc Fixture.row true (Some 3%nat)) None true eq_refl).
  right. reflexivity.
Defined.


Lemma walkers_leave_cursor_on_result_witness :
  cursor_follows (Doc Fixture.row true (Some 2%nat))
    (sibling None (Some 2%nat) (Some true) (Doc Fixture.row true (Some 2%nat))).
Proof.
  apply (walkers_leave_cursor_on_result (Doc Fixture.row true (Some 2%nat))
           None true (Some 2%nat) (Some true) eq_refl).
Defined.

Lemma walkers_keep_document_well_formed_witness :
  well_formed
    (snd (sibling None (Some 2%nat) (Some true)
            (Doc Fixture.row true (Some 2%nat)))).
Proof.
  apply (walkers_keep_document_well_formed (Doc Fixture.row true (Some 2%nat))
           None true (Some 2%nat) (Some true)).
  apply row_well_formed. lia.
Defined.

Lemma factories_make_new_detached_nodes_witness :
  well_formed (snd (create_comment None (Doc Fixture.row true (Some 2%nat)))).
Proof.
  destruct (factories_make_new_detached_nodes
              (Doc Fixture.row true (Some 2%nat)) None) as (_ & Hc & _ & H).
  apply (H Comment ""%string _ Hc). apply row_well_formed. lia.
Defined.

Lemma clear_text_content_removes_children_witness :
  exists d',
    clear_text_content (Some 1%nat) (Doc Fixture.row false None) = (Ok tt, d') /\
    get_first_child (Some 1%nat) d' = (Ok None, d') /\
    heap d' !! 3%nat = Some (Node Text "hi" None [] []).
Proof.
  destruct (clear_text_content_removes_children (Doc Fixture.row false None)
              1%nat Fixture.the_p eq_refl (or_introl eq_refl))
    as (d' & Hrun & _ & _ & _ & Hfirst & Hkids & _).
  { simpl. rewrite !not_elem_of_cons. repeat split; try lia.
    apply not_elem_of_nil. }
  exists d'. split; [assumption|]. split; [assumption|].
  apply (Hkids 3%nat (Node Text "hi" (Some 1%nat) [] [])); [|reflexivity].
  simpl. rewrite !elem_of_cons. auto.
Defined.

Lemma clear_text_content_idempotent_witness :
  snd (clear_text_content (Some 3%nat) (Doc Fixture.row false None))
    = Doc (<[3%nat := Node Text "" (Some 1%nat) [] []]> Fixture.row) false None.
Proof.
  destruct (clear_text_content_idempotent (Doc Fixture.row false None)
              (Some 3%nat)) as (_ & _ & _ & H).
  apply (H 3%nat (Node Text "hi" (Some 1%nat) [] [])); try reflexivity.
  left. reflexivity.
Defined.

Lemma clear_text_content_keeps_well_formed_witness :
  well_formed
    (snd (clear_text_content (Some 1%nat) (Doc Fixture.row true (Some 3%nat)))).
Proof.
  apply (clear_text_content_keeps_well_formed
           (Doc Fixture.row true (Some 3%nat)) (Some 1%nat)).
  apply row_well_formed. lia.
Defined.

Lemma set_attribute_touches_only_attributes_witness :
  set_attribute Sample.html (Some 3%nat) "id" None (Doc Fixture.row false None)
    = (Throw TypeError, Doc Fixture.row false None) /\
  set_attribute Sample.html (Some 4%nat) "" None (Doc Fixture.row false None)
    = (Throw InvalidCharacterError, Doc Fixture.row false None) /\
  exists l,
    set_attribute Sample.html (Some 4%nat) "id" None
        (Doc Fixture.row false None)
      = (Ok tt,
         Doc (<[4%nat := Node Element "" (Some 1%nat) [] l]> Fixture.row)
             false None).
Proof.
  split; [|split].
  - apply (set_attribute_touches_only_attributes Sample.html
             (Doc Fixture.row false None) (Some 3%nat) "id" None).
    reflexivity.
  - destruct (set_attribute_touches_only_attributes Sample.html
                (Doc Fixture.row false None) (Some 4%nat) "" None)
      as (_ & H & _).
    destruct (H 4%nat (Node Element "" (Some 1%nat) [] []) eq_refl eq_refl
                eq_refl) as (Hthrow & _).
    apply Hthrow. reflexivity.
  - destruct (set_attribute_touches_only_attributes Sample.html
                (Doc Fixture.row false None) (Some 4%nat) "id" None)
      as (_ & H & _).
    destruct (H 4%nat (Node Element "" (Some 1%nat) [] []) eq_refl eq_refl
                eq_refl) as (_ & Hok).
    destruct (Hok eq_refl) as (l & Hrun & _).
    exists l. exact Hrun.
Defined.


Lemma child_then_sibling_reaches_kth_child_witness :
  child (Some 1%nat) false (Doc Fixture.row false None)
    = (Ok (Some 2%nat), Doc Fixture.row false None) /\
  sibling (Some 2%nat) (Some 2%nat) None (Doc Fixture.row false None)
    = (Ok (Some 4%nat), Doc Fixture.row false None).
Proof.
  apply (child_then_sibling_reaches_kth_child (Doc Fixture.row false None)
           None None 1%nat Fixture.the_p 2%nat 2%nat false None eq_refl
           row_children_distinct row_children_point_back eq_refl).
  - simpl. lia.
  - reflexivity.
Defined.

Lemma hydration_agrees_with_fresh_traversal_witness :
  fst (sibling None (Some 2%nat) (Some false)
         (Doc Fixture.row true (Some 2%nat)))
  = fst (sibling (Some 2%nat) (Some 2%nat) None (Doc Fixture.row false None)).
Proof.
  apply (hydration_agrees_with_fresh_traversal
           (Doc Fixture.row true (Some 2%nat)) (Doc Fixture.row false None)
           (Some 2%nat) None (Some 2%nat) false None eq_refl eq_refl eq_refl
           eq_refl).
Defined.

Lemma should_defer_append_depends_on_one_bit_witness :
  should_defer_append 15 (Runtime true (Some (Effect 32768)))
    = should_defer_append 15 (Runtime true (Some (Effect (32768 + 4294967296 + 3)))).
Proof.
  apply should_defer_append_depends_on_one_bit; [lia|reflexivity].
Defined.
